(** * md-to-docx: template filling and Markdown rendering

    A shallow embedding of [Python/Tools/md-to-docx.py]
    (class [MarkdownTemplateProcessor]) and the properties of its
    fill-then-render pipeline.

    Conventions.
    - A Python [str] is a list of characters.  Characters are the code
      points below 256 ([ascii]); the character classes of [re] and [str]
      ([\w], [\d], [\s], [str.strip]) are the Unicode-aware ones of Python 3
      restricted to that range.
    - A [dict] is an association list in insertion order with unique keys:
      [fill_template] iterates [data.items()] and the order of the
      replacements is observable.
    - The document of [python-docx] is the list of blocks appended to its
      body, in order.  Setting the text of a run, a paragraph, a heading
      or a cell fails with [ValueError] when the text has a control
      character other than the tab, the line feed and the carriage return
      (the XML library refuses it); in the text read back a carriage
      return is a line break.  Indexing the cells of a row out of range
      fails with [IndexError].
    - [datetime.now().strftime(...)] is an input of [fill_template]: the
      already formatted time stamp. *)

From Stdlib Require Import Strings.String Strings.Ascii Lists.List Bool.Bool.
From Stdlib Require Import Arith.PeanoNat Arith.Arith ZArith.ZArith micromega.Lia.
From Stdlib Require Import Numbers.DecimalString.
Import ListNotations.

Set Warnings "-register-all".

(** The type of Python strings. *)
Definition str := list ascii.

Notation "$ s" := (list_ascii_of_string s%string) (at level 1, s at level 0, format "$ s").

Definition ord (c : ascii) : nat := nat_of_ascii c.

(** ** Character classes *)

Module CharClass.

Definition between (lo hi : nat) (c : ascii) : bool :=
  (lo <=? ord c) && (ord c <=? hi).

(** [str.isspace] on one character, also [\s] of [re] on [str] patterns. *)
Definition is_space (c : ascii) : bool :=
  between 9 13 c || between 28 32 c || (ord c =? 133) || (ord c =? 160).

(** [\d] of [re]: the decimal digits. *)
Definition is_digit (c : ascii) : bool := between 48 57 c.

(** The class [[A-Za-z0-9_]] the specification names. *)
Definition is_ident_char (c : ascii) : bool :=
  between 65 90 c || between 97 122 c || between 48 57 c || (ord c =? 95).

(** [\w] of [re] on [str] patterns: alphanumeric or underscore.  Above 127
    these are the letters, superscript digits and fractions of Latin-1. *)
Definition is_word (c : ascii) : bool :=
  is_ident_char c
  || (ord c =? 170) || (ord c =? 178) || (ord c =? 179) || (ord c =? 181)
  || (ord c =? 185) || (ord c =? 186) || between 188 190 c
  || between 192 214 c || between 216 246 c || between 248 255 c.

End CharClass.
Import CharClass.

(** ** Methods of [str] *)

Module PyStr.

Definition eqc (a b : ascii) : bool := Ascii.eqb a b.

(** [s.startswith(p)], returning what follows the prefix. *)
Fixpoint strip_prefix (p s : str) : option str :=
  match p with
  | [] => Some s
  | a :: p' =>
      match s with
      | [] => None
      | b :: s' => if eqc a b then strip_prefix p' s' else None
      end
  end.

Definition startswith (s p : str) : bool :=
  match strip_prefix p s with Some _ => true | None => false end.

Definition endswith (s p : str) : bool := startswith (rev s) (rev p).

(** [p in s] *)
Fixpoint contains (p s : str) : bool :=
  startswith s p ||
  match s with
  | [] => false
  | _ :: s' => contains p s'
  end.

Fixpoint dropwhile (f : ascii -> bool) (s : str) : str :=
  match s with
  | [] => []
  | c :: s' => if f c then dropwhile f s' else s
  end.

Fixpoint takewhile (f : ascii -> bool) (s : str) : str :=
  match s with
  | [] => []
  | c :: s' => if f c then c :: takewhile f s' else []
  end.

(** [s.lstrip()], [s.rstrip()], [s.strip()] *)
Definition lstrip (s : str) : str := dropwhile is_space s.
Definition rstrip (s : str) : str := rev (dropwhile is_space (rev s)).
Definition strip (s : str) : str := rstrip (lstrip s).

(** [s.lstrip(c)] for a one-character argument. *)
Definition lstrip_char (c : ascii) (s : str) : str := dropwhile (eqc c) s.

(** [s.split(c)] for a one-character separator: never empty. *)
Fixpoint split_on (c : ascii) (s : str) : list str :=
  match s with
  | [] => [[]]
  | a :: s' =>
      if eqc c a then [] :: split_on c s'
      else match split_on c s' with
           | p :: ps => (a :: p) :: ps
           | [] => [[a]]
           end
  end.

(** [s.split()[0]] for a string that is stripped and not empty: the first
    whitespace-delimited word. *)
Definition first_word (s : str) : str :=
  takewhile (fun c => negb (is_space c)) (lstrip s).

(** [sep.join(l)] *)
Fixpoint join (sep : str) (l : list str) : str :=
  match l with
  | [] => []
  | [x] => x
  | x :: l' => x ++ sep ++ join sep l'
  end.

(** [s[a:-b]] for literal [a] and [b] *)
Definition slice (a b : nat) (s : str) : str :=
  firstn (length s - a - b) (skipn a s).

(** [l[1:-1]] on a list *)
Definition inner {A : Type} (l : list A) : list A := removelast (tl l).

End PyStr.
Import PyStr.

(** ** Leftmost, non-overlapping scanning

    [str.replace], [re.sub], [re.findall] and [re.split] all walk the
    subject from the left: where the pattern matches, the match is taken and
    the walk goes on after it; elsewhere one character is passed over.  A
    matcher returns what it captured and the rest of the subject. *)

Module Scan.

Section Scanner.
Variable A : Type.
Variable m : str -> option (A * str).

Fixpoint scan_fuel (n : nat) (s : str) : list (ascii + A) :=
  match n with
  | 0 => []
  | S n' =>
      match s with
      | [] => []
      | c :: t =>
          match m s with
          | Some (a, rest) => inr a :: scan_fuel n' rest
          | None => inl c :: scan_fuel n' t
          end
      end
  end.

(** Every match consumes a character, so the length is fuel enough. *)
Definition scan (s : str) : list (ascii + A) := scan_fuel (length s) s.

(** The matches alone ([re.findall]). *)
Fixpoint matches (ts : list (ascii + A)) : list A :=
  match ts with
  | [] => []
  | inl _ :: r => matches r
  | inr a :: r => a :: matches r
  end.

(** Every match replaced ([str.replace], [re.sub]). *)
Fixpoint subst (f : A -> str) (ts : list (ascii + A)) : str :=
  match ts with
  | [] => []
  | inl c :: r => c :: subst f r
  | inr a :: r => f a ++ subst f r
  end.

(** The pieces between the matches, with the matches in between
    ([re.split] on a pattern that is one capturing group). *)
Fixpoint pieces (f : A -> str) (ts : list (ascii + A)) : list str :=
  match ts with
  | [] => [[]]
  | inl c :: r =>
      match pieces f r with
      | p :: ps => (c :: p) :: ps
      | [] => [[c]]
      end
  | inr a :: r => [] :: f a :: pieces f r
  end.
End Scanner.

Arguments scan_fuel {A} m n s.
Arguments scan {A} m s.
Arguments matches {A} ts.
Arguments subst {A} f ts.
Arguments pieces {A} f ts.

End Scan.

(** The matcher behind [s.replace(old, new)]. *)
Definition at_prefix (old : str) (t : str) : option (unit * str) :=
  option_map (fun r => (tt, r)) (strip_prefix old t).

(** [s.replace(old, new)].  An empty [old] matches between any two
    characters and at both ends. *)
Definition replace (old new s : str) : str :=
  match old with
  | [] => new ++ flat_map (fun c => c :: new) s
  | _ :: _ => Scan.subst (fun _ : unit => new) (Scan.scan (at_prefix old) s)
  end.

(** ** The regular expressions of the program *)

Module PyRe.

Definition lbrace : ascii := "{"%char.
Definition rbrace : ascii := "}"%char.
Definition newline : ascii := "010"%char.
Definition dot : ascii := "."%char.
Definition pipe : ascii := "|"%char.
Definition hash : ascii := "#"%char.

(** A greedy run of a character class, and what follows it. *)
Fixpoint span (f : ascii -> bool) (s : str) : str * str :=
  match s with
  | [] => ([], [])
  | c :: s' =>
      if f c then let (w, r) := span f s' in (c :: w, r) else ([], s)
  end.

(** [\{\{(\w+)\}\}] matched at the start of [s]: the identifier and the
    rest.  Neither brace is a word character, so the greedy run is the only
    candidate. *)
Definition match_placeholder (s : str) : option (str * str) :=
  match strip_prefix $"{{" s with
  | None => None
  | Some t =>
      let (w, r) := span is_word t in
      match w with
      | [] => None
      | _ :: _ =>
          match strip_prefix $"}}" r with
          | Some rest => Some (w, rest)
          | None => None
          end
      end
  end.

(** [re.findall(r'\{\{(\w+)\}\}', s)] *)
Definition findall_placeholders (s : str) : list str :=
  Scan.matches (Scan.scan match_placeholder s).

(** [re.sub(r'\{\{(\w+)\}\}', repl, s)] *)
Definition sub_placeholders (repl s : str) : str :=
  Scan.subst (fun _ : str => repl) (Scan.scan match_placeholder s).

(** [.*?\*\*] after an opening [**]: the shortest run of characters other
    than a newline that is followed by [**]. *)
Fixpoint until_stars (s : str) : option (str * str) :=
  match s with
  | [] => None
  | c :: s' =>
      match strip_prefix $"**" s with
      | Some r => Some ([], r)
      | None =>
          if eqc c newline then None
          else match until_stars s' with
               | Some (x, r) => Some (c :: x, r)
               | None => None
               end
      end
  end.

(** The capturing group of [re.split], a bold span, matched at the start
    of [s]: the whole span, markers included, and the rest. *)
Definition match_bold (s : str) : option (str * str) :=
  match strip_prefix $"**" s with
  | None => None
  | Some t =>
      match until_stars t with
      | Some (x, r) => Some ($"**" ++ x ++ $"**", r)
      | None => None
      end
  end.

(** [re.split] of [s] on the bold spans, the spans kept as pieces. *)
Definition split_bold (s : str) : list str :=
  Scan.pieces (fun d : str => d) (Scan.scan match_bold s).

(** [re.match(r'^\d+\.', s)] as a truth value. *)
Definition match_numbered (s : str) : bool :=
  let (d, r) := span is_digit s in
  match d with
  | [] => false
  | _ :: _ => startswith r [dot]
  end.

(** [re.sub(r'^\d+\.\s*', '', s)]: the pattern is anchored, so at most the
    one match at the start is removed. *)
Definition sub_numbered (s : str) : str :=
  let (d, r) := span is_digit s in
  match d with
  | [] => s
  | _ :: _ =>
      match strip_prefix [dot] r with
      | Some t => dropwhile is_space t
      | None => s
      end
  end.

End PyRe.
Import PyRe.

(** ** Values of the data record *)

Module Data.

(** What [str(x)] and [format(x)] can render without more of Python. *)
Inductive scalar : Type :=
| SStr (s : str)
| SInt (z : Z)
| SBool (b : bool)
| SNone.

Inductive value : Type :=
| VScalar (x : scalar)
| VList (items : list scalar)
| VDict (d : list (str * value)).

(** A [dict] with [str] keys, in insertion order. *)
Definition dict (V : Type) : Type := list (str * V).

Definition str_eqb (a b : str) : bool :=
  if list_eq_dec ascii_dec a b then true else false.

(** [d.get(k)] *)
Fixpoint dict_get {V : Type} (k : str) (d : dict V) : option V :=
  match d with
  | [] => None
  | (k', v) :: d' => if str_eqb k k' then Some v else dict_get k d'
  end.

(** [k in d] *)
Definition dict_mem {V : Type} (k : str) (d : dict V) : bool :=
  match dict_get k d with Some _ => true | None => false end.

(** [d[k] = v]: an existing key keeps its place, a new one goes last. *)
Fixpoint dict_set {V : Type} (k : str) (v : V) (d : dict V) : dict V :=
  match d with
  | [] => [(k, v)]
  | (k', v') :: d' =>
      if str_eqb k k' then (k', v) :: d' else (k', v') :: dict_set k v d'
  end.

Definition keys {V : Type} (d : dict V) : list str := map fst d.

(** [str(x)], also what an f-string puts for [{x}]. *)
Definition str_of (x : scalar) : str :=
  match x with
  | SStr s => s
  | SInt z => list_ascii_of_string (NilZero.string_of_int (Z.to_int z))
  | SBool true => $"True"
  | SBool false => $"False"
  | SNone => $"None"
  end.

End Data.
Import Data.

(** ** The document of python-docx *)

Module Docx.

(** A run of a paragraph.  [bold] and [italic] are the flags the program
    sets; a run it leaves alone has neither. *)
Record run : Type := mk_run { run_text : str; run_bold : bool; run_italic : bool }.

Definition plain (t : str) : run := mk_run t false false.

(** A table cell: the runs of its paragraph. *)
Definition cell : Type := list run.

Inductive block : Type :=
| Heading (level : nat) (text : str)
| Paragraph (style : option str) (runs : list run)
| Table (style : str) (rows : list (list cell)).

Definition document : Type := list block.

Inductive exn : Type :=
| IndexError
| ValueError.

Inductive result (A : Type) : Type :=
| Ok (a : A)
| Raise (e : exn).
Arguments Ok {A} a.
Arguments Raise {A} e.

Definition bind {A B : Type} (r : result A) (k : A -> result B) : result B :=
  match r with
  | Ok a => k a
  | Raise e => Raise e
  end.

(** A loop that collects what each round returns and stops at the first
    failure. *)
Fixpoint map_result {A B : Type} (f : A -> result B) (l : list A) : result (list B) :=
  match l with
  | [] => Ok []
  | x :: l' => bind (f x) (fun y => bind (map_result f l') (fun ys => Ok (y :: ys)))
  end.

Definition cr : ascii := "013"%char.

(** The characters the XML library under python-docx takes in a text: the
    control characters below 32 are refused, but for the tab, the line feed
    and the carriage return, which python-docx turns into elements of their
    own. *)
Definition xml_ok (c : ascii) : bool :=
  (32 <=? ord c) || (ord c =? 9) || (ord c =? 10) || (ord c =? 13).

Definition xml_text (t : str) : bool := forallb xml_ok t.

(** The text of a run as it reads once it is set: a carriage return has
    become a line break. *)
Definition stored (t : str) : str :=
  map (fun c => if Ascii.eqb c cr then "010"%char else c) t.

(** [run.text = t] on a new run with the given flags: a [ValueError] for a
    text the XML library refuses. *)
Definition text_run (t : str) (bold italic : bool) : result run :=
  if xml_text t then Ok (mk_run (stored t) bold italic) else Raise ValueError.

(** [doc.add_paragraph(text, style)]: a run is made for a text that is not
    empty. *)
Definition add_paragraph (doc : document) (text : str) (style : option str)
  : result document :=
  match text with
  | [] => Ok (doc ++ [Paragraph style []])
  | _ :: _ =>
      bind (text_run text false false)
        (fun r => Ok (doc ++ [Paragraph style [r]]))
  end.

(** [doc.add_heading(text, level=level)]: the level is checked, then the
    heading is a paragraph with the text. *)
Definition add_heading (doc : document) (text : str) (level : nat) : result document :=
  if level <=? 9 then
    bind (text_run text false false)
      (fun r => Ok (doc ++ [Heading level (run_text r)]))
  else Raise ValueError.

(** [doc.add_table(rows, cols)] with [table.style = style]: a grid of cells
    without runs. *)
Definition new_table (rows cols : nat) : list (list cell) :=
  repeat (repeat ([] : cell) cols) rows.

(** [cell.text = t]: the content becomes one run. *)
Definition set_text (c : cell) (t : str) : result cell :=
  bind (text_run t false false) (fun r => Ok [r]).

(** [run.bold = True] for every run of every paragraph of the cell. *)
Definition set_bold (c : cell) : cell :=
  map (fun r => mk_run (run_text r) true (run_italic r)) c.

(** [l[i] = x] where [i] is in range. *)
Fixpoint update {A : Type} (i : nat) (x : A) (l : list A) : list A :=
  match l, i with
  | [], _ => []
  | _ :: l', 0 => x :: l'
  | y :: l', S i' => y :: update i' x l'
  end.

End Docx.
Import Docx.

(** ** class MarkdownTemplateProcessor *)

Module MarkdownTemplateProcessor.

Record processor : Type := mk_processor { template : str; filled_content : str }.

Definition nl : str := [newline].

(** [_get_default_template] *)
Definition _get_default_template : str :=
  $"# {{document_title}}

## Executive Summary
{{executive_summary}}

## Project Information
- **Project Name:** {{project_name}}
- **Project Manager:** {{project_manager}}
- **Start Date:** {{start_date}}
- **End Date:** {{end_date}}
- **Status:** {{project_status}}

## Objectives
{{project_objectives}}

## Scope
### In Scope
{{in_scope_items}}

### Out of Scope
{{out_scope_items}}

## Stakeholders
| Name | Role | Contact | Responsibility |
|------|------|---------|----------------|
{{stakeholder_table}}

## Timeline
{{timeline_section}}

## Budget
- **Total Budget:** {{total_budget}}
- **Spent to Date:** {{spent_amount}}
- **Remaining:** {{remaining_budget}}

### Budget Breakdown
{{budget_breakdown}}

## Risks and Mitigation
{{risks_section}}

## Key Deliverables
{{deliverables_list}}

## Success Metrics
{{success_metrics}}

## Additional Notes
{{additional_notes}}

---
*Document generated on: {{generation_date}}*
*Prepared by: {{prepared_by}}*
".

(** [__init__] *)
Definition new : processor := mk_processor _get_default_template [].

(** [set_custom_template] *)
Definition set_custom_template (self : processor) (t : str) : processor :=
  mk_processor t (filled_content self).

(** [extract_placeholders]: the names found, duplicates removed.  The order
    of [list(set(...))] is not fixed by Python; the order of first
    occurrence stands for it. *)
Definition extract_placeholders (self : processor) : list str :=
  nodup (list_eq_dec ascii_dec) (findall_placeholders (template self)).

(** [_dict_to_markdown(d, level)].  [result] gets one entry per line, but
    the rendering of a nested mapping is appended as the one string the
    recursive call returned. *)
Fixpoint dict_markdown (v : value) (level : nat) : str :=
  match v with
  | VDict d =>
      let indent := concat (repeat $"  " level) in
      join nl
        ((fix items (d : list (str * value)) : list str :=
            match d with
            | [] => []
            | (key, value) :: d' =>
                match value with
                | VDict _ =>
                    [indent ++ $"- **" ++ key ++ $":**";
                     dict_markdown value (S level)]
                | VList l =>
                    (indent ++ $"- **" ++ key ++ $":**")
                    :: map (fun item => indent ++ $"  - " ++ str_of item) l
                | VScalar x =>
                    [indent ++ $"- **" ++ key ++ $":** " ++ str_of x]
                end ++ items d'
            end) d)
  | _ => []
  end.

Definition _dict_to_markdown (d : dict value) (level : nat) : str :=
  dict_markdown (VDict d) level.

(** [indent] and [result] of [_dict_to_markdown(d, level)] on their own. *)
Definition indent (level : nat) : str := concat (repeat $"  " level).

Fixpoint dict_result (d : dict value) (level : nat) : list str :=
  match d with
  | [] => []
  | (key, value) :: d' =>
      match value with
      | VDict n =>
          [indent level ++ $"- **" ++ key ++ $":**";
           _dict_to_markdown n (S level)]
      | VList l =>
          (indent level ++ $"- **" ++ key ++ $":**")
          :: map (fun item => indent level ++ $"  - " ++ str_of item) l
      | VScalar x =>
          [indent level ++ $"- **" ++ key ++ $":** " ++ str_of x]
      end ++ dict_result d' level
  end.

(** The display string [fill_template] computes for a value. *)
Definition display (v : value) : str :=
  match v with
  | VList l => join nl (map (fun item => $"- " ++ str_of item) l)
  | VDict d => _dict_to_markdown d 0
  | VScalar SNone => $"Not specified"
  | VScalar x => str_of x
  end.

(** The f-string that wraps a key in two pairs of braces. *)
Definition token (placeholder : str) : str := $"{{" ++ placeholder ++ $"}}".

Definition sentinel : str := $"[To be filled]".

(** The loop over [data.items()]. *)
Fixpoint fill_items (filled : str) (items : dict value) : str :=
  match items with
  | [] => filled
  | (placeholder, value) :: items' =>
      fill_items (replace (token placeholder) (display value) filled) items'
  end.

(** The caller's mapping after the first statement of [fill_template]. *)
Definition with_generation_date (now : str) (data : dict value) : dict value :=
  if dict_mem $"generation_date" data then data
  else dict_set $"generation_date" (VScalar (SStr now)) data.

(** [fill_template(data)], with [now] the formatted time stamp.  Returns
    the filled text, the processor with [filled_content] set, and the
    caller's mapping as the call leaves it. *)
Definition fill_template (self : processor) (now : str) (data : dict value)
  : str * processor * dict value :=
  let data' := with_generation_date now data in
  let filled := fill_items (template self) data' in
  let filled := sub_placeholders sentinel filled in
  (filled, mk_processor (template self) filled, data').

(** [_add_heading] *)
Definition _add_heading (doc : document) (text : str) (level : nat) : result document :=
  if level <=? 3 then add_heading doc text level
  else add_paragraph doc text (Some $"Heading 3").

(** [_add_paragraph] *)
Definition _add_paragraph (doc : document) (text : str) : result document :=
  match text with
  | [] => Ok doc
  | _ :: _ => add_paragraph doc text None
  end.

(** The run [_add_formatted_paragraph] adds for one part of the split. *)
Definition run_of_part (part : str) : result run :=
  if startswith part $"**" && endswith part $"**" then
    text_run (slice 2 2 part) true false
  else if startswith part $"*" && endswith part $"*" && negb (startswith part $"**") then
    text_run (slice 1 1 part) false true
  else text_run part false false.

(** [_add_formatted_paragraph] *)
Definition _add_formatted_paragraph (doc : document) (text : str) : result document :=
  bind (map_result run_of_part (split_bold text))
    (fun runs => Ok (doc ++ [Paragraph None runs])).

(** [_add_list_to_doc] *)
Fixpoint _add_list_to_doc (doc : document) (items : list str) : result document :=
  match items with
  | [] => Ok doc
  | item :: items' =>
      bind (add_paragraph doc item (Some $"List Bullet"))
        (fun doc' => _add_list_to_doc doc' items')
  end.

(** The cells of one row of the Markdown table. *)
Definition row_cells (row : str) : list str :=
  map strip (inner (split_on pipe row)).

Definition cleaned (table_data : list str) : list (list str) :=
  map row_cells (filter (fun row => negb (contains $"---" row)) table_data).

(** The inner loop of [_add_table_to_doc] from column [j] on: [row.cells[j]]
    fails outside the columns of the table, then the text is set. *)
Fixpoint fill_cells (i j : nat) (row : list cell) (row_data : list str)
  : result (list cell) :=
  match row_data with
  | [] => Ok row
  | cell_data :: rest =>
      match nth_error row j with
      | None => Raise IndexError
      | Some c =>
          bind (set_text c cell_data)
            (fun c =>
               let c := if i =? 0 then set_bold c else c in
               fill_cells i (S j) (update j c row) rest)
      end
  end.

(** The outer loop from row [i] on; [table.rows[i]] exists for every row of
    the data. *)
Fixpoint fill_rows (i : nat) (table : list (list cell)) (data : list (list str))
  : result (list (list cell)) :=
  match data with
  | [] => Ok table
  | row_data :: rest =>
      match nth_error table i with
      | None => Raise IndexError
      | Some row =>
          bind (fill_cells i 0 row row_data)
            (fun row' => fill_rows (S i) (update i row' table) rest)
      end
  end.

(** [_add_table_to_doc] *)
Definition _add_table_to_doc (doc : document) (table_data : list str)
  : result document :=
  let cleaned_data := cleaned table_data in
  match cleaned_data with
  | [] => Ok doc
  | header :: _ =>
      let table := new_table (length cleaned_data) (length header) in
      bind (fill_rows 0 table cleaned_data)
        (fun table' => Ok (doc ++ [Table $"Light Shading Accent 1" table']))
  end.

(** The locals of [markdown_to_docx] while it walks the lines. *)
Record locals : Type := mk_locals {
  doc : document;
  current_list : list str;
  in_table : bool;
  table_data : list str
}.

Definition init : locals := mk_locals [] [] false [].

(** [if current_list: self._add_list_to_doc(doc, current_list); current_list = []] *)
Definition flush_list (st : locals) : result locals :=
  match current_list st with
  | [] => Ok st
  | _ :: _ =>
      bind (_add_list_to_doc (doc st) (current_list st))
        (fun d => Ok (mk_locals d [] (in_table st) (table_data st)))
  end.

(** The body of the loop for one line. *)
Definition step (st : locals) (line : str) : result locals :=
  let line := strip line in
  match line with
  | [] => flush_list st
  | _ :: _ =>
      if startswith line $"#" then
        bind (flush_list st)
          (fun st =>
             let level := length (first_word line) in
             let text := strip (lstrip_char hash line) in
             bind (_add_heading (doc st) text level)
               (fun d => Ok (mk_locals d (current_list st)
                               (in_table st) (table_data st))))
      else if contains $"|" line then
        let data := if in_table st then table_data st else [] in
        Ok (mk_locals (doc st) (current_list st) true (data ++ [line]))
      else if in_table st && negb (contains $"|" line) then
        bind (match table_data st with
              | [] => Ok (doc st)
              | _ :: _ => _add_table_to_doc (doc st) (table_data st)
              end)
          (fun d =>
             bind (_add_paragraph d line)
               (fun d => Ok (mk_locals d (current_list st) false [])))
      else if startswith line $"- " || startswith line $"* " || startswith line $"+ " then
        Ok (mk_locals (doc st) (current_list st ++ [skipn 2 line])
              (in_table st) (table_data st))
      else if match_numbered line then
        Ok (mk_locals (doc st) (current_list st ++ [sub_numbered line])
              (in_table st) (table_data st))
      else if contains $"**" line then
        bind (flush_list st)
          (fun st =>
             bind (_add_formatted_paragraph (doc st) line)
               (fun d => Ok (mk_locals d (current_list st)
                               (in_table st) (table_data st))))
      else
        bind (flush_list st)
          (fun st =>
             bind (_add_paragraph (doc st) line)
               (fun d => Ok (mk_locals d (current_list st)
                               (in_table st) (table_data st))))
  end.

(** The loop. *)
Fixpoint run_lines (st : locals) (lines : list str) : result locals :=
  match lines with
  | [] => Ok st
  | line :: rest => bind (step st line) (fun st' => run_lines st' rest)
  end.

(** What follows the loop: the remaining list, then the remaining table. *)
Definition finish (st : locals) : result document :=
  bind (flush_list st)
    (fun st =>
       if in_table st && negb (match table_data st with [] => true | _ => false end)
       then _add_table_to_doc (doc st) (table_data st)
       else Ok (doc st)).

(** [markdown_to_docx(markdown_content)]; [None] stands for the omitted
    argument.  The styles set by [_setup_document_styles] and the unused
    HTML rendering leave the body of the document alone. *)
Definition markdown_to_docx (self : processor) (markdown_content : option str)
  : result document :=
  let markdown_content :=
    match markdown_content with
    | Some c => c
    | None => filled_content self
    end in
  bind (run_lines init (split_on newline markdown_content)) finish.

End MarkdownTemplateProcessor.
Import MarkdownTemplateProcessor.

(** ** Notions the properties are stated with *)

Module Notions.

(** What may follow a greedy run: nothing, or a character outside the class. *)
Definition stops (f : ascii -> bool) (r : str) : Prop :=
  match r with
  | [] => True
  | c :: _ => f c = false
  end.

Section Matchers.
Variable A : Type.
Variable m : str -> option (A * str).

(** A match takes at least one character. *)
Definition shrinks : Prop :=
  forall s a r, m s = Some (a, r) -> length r < length s.

(** [y] is a boundary: a match that starts before [y] ends before [y]. *)
Definition boundary (y : str) : Prop :=
  forall p, p <> [] ->
    match m p with
    | Some (a, r) => m (p ++ y) = Some (a, r ++ y)
    | None => m (p ++ y) = None
    end.
End Matchers.

Arguments shrinks {A} m.
Arguments boundary {A} m y.

(** No brace of either kind occurs in [x]. *)
Definition no_brace (x : str) : bool :=
  forallb (fun c => negb (eqc c lbrace) && negb (eqc c rbrace)) x.

(** [x] matches [\w+]. *)
Definition word (x : str) : bool :=
  match x with
  | [] => false
  | _ :: _ => forallb is_word x
  end.

(** [x] matches [[A-Za-z0-9_]+], the identifiers of the specification. *)
Definition identifier (x : str) : bool :=
  match x with
  | [] => false
  | _ :: _ => forallb is_ident_char x
  end.

(** What a matcher takes is a token [{{x}}] whose [x] has no brace, and
    the token alone decides the match. *)
Definition braced {A : Type} (m : str -> option (A * str)) : Prop :=
  forall s a r, m s = Some (a, r) ->
    exists x, no_brace x = true /\ s = token x ++ r /\
              forall r2, m (token x ++ r2) = Some (a, r2).

(** The number of [#] characters a line starts with. *)
Definition leading_hashes (line : str) : nat :=
  length (takewhile (eqc hash) line).

(** The keys of a mapping are names without braces, none of them [t]. *)
Definition names_other_than (t : str) (ks : list str) : Prop :=
  Forall (fun k => no_brace k = true /\ k <> t) ks.

(** The block [_add_list_to_doc] adds for one item. *)
Definition bullet (item : str) : block :=
  Paragraph (Some $"List Bullet")
    (match item with [] => [] | _ :: _ => [plain (stored item)] end).

(** The open list is flushed, then [k] adds to the document; the list is
    then empty and the table buffer as it was. *)
Definition after_flush (st : locals) (k : document -> result document)
  : result locals :=
  bind (_add_list_to_doc (doc st) (current_list st))
    (fun d => bind (k d)
       (fun d' => Ok (mk_locals d' [] (in_table st) (table_data st)))).

(** [if table_data: self._add_table_to_doc(doc, table_data)] *)
Definition flush_table (st : locals) : result document :=
  match table_data st with
  | [] => Ok (doc st)
  | _ :: _ => _add_table_to_doc (doc st) (table_data st)
  end.

(** A line is a list item of either kind. *)
Definition is_item (line : str) : bool :=
  startswith line $"- " || startswith line $"* " || startswith line $"+ "
  || match_numbered line.

(** The table buffer holds rows only while the flag is set. *)
Definition table_inv (st : locals) : Prop :=
  in_table st = false -> table_data st = [].

(** [u] occurs in [s]. *)
Definition occurs (u s : str) : Prop := exists pre suf, s = pre ++ u ++ suf.

End Notions.
Import Notions.

(** ** Shapes of input and output used by the further properties *)

Module Shapes.

(** The keys of a mapping are names without braces. *)
Definition plain_names (ks : list str) : Prop :=
  Forall (fun k => no_brace k = true) ks.

(** A row of the table as [_add_table_to_doc] leaves it: one run for each
    cell of the data (bold in the header row), the other cells empty. *)
Definition render_row (header : bool) (cols : nat) (row_data : list str) : list cell :=
  map (fun d => [mk_run (stored d) header false]) row_data
  ++ repeat ([] : cell) (cols - length row_data).

(** The rows from the row of index [i] on. *)
Fixpoint render_from (cols i : nat) (data : list (list str)) : list (list cell) :=
  match data with
  | [] => []
  | d :: ds => render_row (i =? 0) cols d :: render_from cols (S i) ds
  end.

(** A native heading has a level from 1 to 3. *)
Definition heading_ok (b : block) : Prop :=
  match b with
  | Heading level _ => 1 <= level <= 3
  | _ => True
  end.

Definition no_table (b : block) : Prop :=
  match b with
  | Table _ _ => False
  | _ => True
  end.

(** A block the walk may add: a heading has a level from 1 to 3, and a
    table comes from an open table buffer only. *)
Definition fair (open : bool) (b : block) : Prop :=
  heading_ok b /\ (no_table b \/ open = true).

(** A line that goes to the table buffer: not a heading, with a pipe. *)
Definition row_like (line : str) : Prop :=
  startswith (strip line) $"#" = false /\ contains $"|" (strip line) = true.

(** The list item [_dict_to_markdown] makes of a key and a scalar. *)
Definition entry (kx : str * scalar) : str :=
  $"**" ++ fst kx ++ $":** " ++ str_of (snd kx).

(** A key and a scalar that make an item on one line, without a pipe,
    without white space at its end and without a character the document
    library refuses. *)
Definition entry_ok (kx : str * scalar) : Prop :=
  ~ In newline (fst kx) /\ ~ In pipe (fst kx) /\
  ~ In newline (str_of (snd kx)) /\ ~ In pipe (str_of (snd kx)) /\
  str_of (snd kx) <> [] /\ rstrip (str_of (snd kx)) = str_of (snd kx) /\
  xml_text (fst kx) = true /\ xml_text (str_of (snd kx)) = true.

(** The asterisk of the inline markers. *)
Definition star : ascii := "*"%char.

(** Every text of a list is one the document library takes. *)
Definition safe_texts (l : list str) : bool := forallb xml_text l.

(** The block [_add_heading] adds for a text and a level. *)
Definition heading_block (text : str) (level : nat) : block :=
  if level <=? 3 then Heading level (stored text)
  else Paragraph (Some $"Heading 3")
         (match text with [] => [] | _ :: _ => [plain (stored text)] end).

(** The blocks [_add_paragraph] adds for a text: none for the empty one. *)
Definition paragraph_blocks (text : str) : list block :=
  match text with
  | [] => []
  | _ :: _ => [Paragraph None [plain (stored text)]]
  end.

(** The text of a list item: not empty, no white space at its end, on one
    line, without a pipe and without a character the document library
    refuses. *)
Definition item_ok (item : str) : Prop :=
  item <> [] /\ rstrip item = item /\ ~ In newline item /\ ~ In pipe item /\
  xml_text item = true.

End Shapes.
Import Shapes.

(* ===== end of definitions ===== *)

(** * Properties *)

(** ** Prefixes and runs *)

Lemma eqc_eq (a b : ascii) : eqc a b = true <-> a = b.
Proof. unfold eqc. apply Ascii.eqb_eq. Qed.

Lemma eqc_refl (a : ascii) : eqc a a = true.
Proof. apply eqc_eq. reflexivity. Qed.

Lemma eqc_neq (a b : ascii) : eqc a b = false <-> a <> b.
Proof. unfold eqc. apply Ascii.eqb_neq. Qed.

Lemma strip_prefix_Some (p s r : str) :
  strip_prefix p s = Some r <-> s = p ++ r.
Proof.
  revert s. induction p as [|a p IH]; intros s; simpl.
  - split; [intros [= ->] | intros ->]; reflexivity.
  - destruct s as [|b s].
    + split; discriminate.
    + destruct (eqc a b) eqn:E.
      * apply eqc_eq in E. subst b. rewrite IH.
        split; [intros -> | intros [= ->]]; reflexivity.
      * apply eqc_neq in E.
        split; [discriminate | intros [= -> _]; contradiction].
  Qed.

Lemma strip_prefix_app (p r : str) : strip_prefix p (p ++ r) = Some r.
Proof. apply strip_prefix_Some. reflexivity. Qed.

Lemma startswith_true (s p : str) :
  startswith s p = true <-> exists r, s = p ++ r.
Proof.
  unfold startswith. destruct (strip_prefix p s) as [r|] eqn:E.
  - apply strip_prefix_Some in E. split; [eauto | reflexivity].
  - split; [discriminate | intros [r ->]].
    rewrite strip_prefix_app in E. discriminate.
Qed.

Lemma span_spec (f : ascii -> bool) (s w r : str) :
  span f s = (w, r) -> s = w ++ r /\ forallb f w = true /\ stops f r.
Proof.
  revert w r. induction s as [|c s IH]; intros w r; simpl.
  - intros [= <- <-]. simpl. auto.
  - destruct (f c) eqn:E.
    + destruct (span f s) as [w' r'].
      intros [= <- <-]. destruct (IH _ _ eq_refl) as (-> & Hw & Hr).
      simpl. rewrite E, Hw. auto.
    + intros [= <- <-]. simpl. auto.
Qed.

Lemma span_app (f : ascii -> bool) (w r : str) :
  forallb f w = true -> stops f r -> span f (w ++ r) = (w, r).
Proof.
  intros Hw Hr. induction w as [|c w IH]; simpl in *.
  - destruct r as [|c r]; [reflexivity|]. simpl in *. rewrite Hr. reflexivity.
  - apply andb_true_iff in Hw as [Hc Hw]. rewrite Hc, (IH Hw). reflexivity.
Qed.

(** ** The walk *)

Lemma scan_fuel_enough {A : Type} (m : str -> option (A * str)) :
  shrinks m ->
  forall n s, length s <= n -> Scan.scan_fuel m n s = Scan.scan m s.
Proof.
  intros Hm n s. unfold Scan.scan. remember (length s) as k eqn:Hk.
  revert n s Hk. induction k as [k IH] using lt_wf_ind.
  intros n s Hk Hn. destruct s as [|c t]; simpl in Hk; subst k.
  - destruct n; reflexivity.
  - destruct n as [|n]; [lia|]. simpl.
    destruct (m (c :: t)) as [[a r]|] eqn:E.
    + pose proof (Hm _ _ _ E) as Hr. simpl in Hr. f_equal.
      rewrite (IH (length r)) by lia.
      symmetry. apply (IH (length r)); lia.
    + f_equal. apply (IH (length t)); simpl in *; lia.
Qed.

Lemma scan_match {A : Type} (m : str -> option (A * str)) (s : str) (a : A) (r : str) :
  shrinks m -> m s = Some (a, r) -> Scan.scan m s = inr a :: Scan.scan m r.
Proof.
  intros Hm E. pose proof (Hm _ _ _ E) as Hr.
  destruct s as [|c t]; simpl in Hr; [lia|].
  unfold Scan.scan at 1. simpl. rewrite E. f_equal.
  apply scan_fuel_enough; [assumption | lia].
Qed.

Lemma scan_pass {A : Type} (m : str -> option (A * str)) (c : ascii) (t : str) :
  m (c :: t) = None -> Scan.scan m (c :: t) = inl c :: Scan.scan m t.
Proof.
  intros E. unfold Scan.scan at 1. simpl. rewrite E. reflexivity.
Qed.

(** A stretch without a match at any of its positions is passed over. *)
Lemma scan_skip {A : Type} (m : str -> option (A * str)) (x y : str) :
  (forall x1 x2, x = x1 ++ x2 -> x2 <> [] -> m (x2 ++ y) = None) ->
  Scan.scan m (x ++ y) = map inl x ++ Scan.scan m y.
Proof.
  induction x as [|c x IH]; intros H; [reflexivity|].
  simpl. rewrite scan_pass.
  - f_equal. apply IH. intros x1 x2 -> Hx2.
    apply (H (c :: x1) x2); [reflexivity | assumption].
  - apply (H [] (c :: x)); [reflexivity | discriminate].
Qed.

Lemma scan_app {A : Type} (m : str -> option (A * str)) (pre y : str) :
  shrinks m -> boundary m y ->
  Scan.scan m (pre ++ y) = Scan.scan m pre ++ Scan.scan m y.
Proof.
  intros Hm Hy. remember (length pre) as k eqn:Hk.
  revert pre Hk. induction k as [k IH] using lt_wf_ind.
  intros [|c t] Hk; [reflexivity|].
  assert (Hp : c :: t <> []) by discriminate.
  specialize (Hy (c :: t) Hp).
  destruct (m (c :: t)) as [[a r]|] eqn:E.
  - rewrite (scan_match _ _ _ _ Hm Hy), (scan_match _ _ _ _ Hm E). simpl. f_equal.
    pose proof (Hm _ _ _ E). apply (IH (length r)); [lia | reflexivity].
  - simpl in *. rewrite (scan_pass _ _ _ Hy), (scan_pass _ _ _ E). simpl. f_equal.
    apply (IH (length t)); [simpl in Hk; lia | reflexivity].
Qed.

Lemma subst_app {A : Type} (f : A -> str) (u v : list (ascii + A)) :
  Scan.subst f (u ++ v) = Scan.subst f u ++ Scan.subst f v.
Proof.
  induction u as [|[c|a] u IH]; simpl; [reflexivity| |].
  - now rewrite IH.
  - now rewrite IH, app_assoc.
Qed.

Lemma subst_inl {A : Type} (f : A -> str) (x : str) :
  Scan.subst f (map inl x) = x.
Proof. induction x as [|c x IH]; simpl; [reflexivity | now rewrite IH]. Qed.

(** ** Tokens in double braces *)

Lemma word_char_not_brace (c : ascii) :
  is_word c = true -> c <> lbrace /\ c <> rbrace.
Proof. intros H. split; intros ->; discriminate H. Qed.

Lemma ident_char_word (c : ascii) : is_ident_char c = true -> is_word c = true.
Proof. intros H. unfold is_word. rewrite H. reflexivity. Qed.

Lemma identifier_word (w : str) : identifier w = true -> word w = true.
Proof.
  destruct w as [|c w]; [discriminate|]. unfold identifier, word.
  rewrite !forallb_forall. intros H x Hx. apply ident_char_word, H, Hx.
Qed.

Lemma word_forallb (w : str) : word w = true -> forallb is_word w = true.
Proof. destruct w; [discriminate | trivial]. Qed.

Lemma word_no_brace (w : str) : word w = true -> no_brace w = true.
Proof.
  intros H. apply word_forallb in H. unfold no_brace.
  rewrite forallb_forall in *. intros c Hc.
  destruct (word_char_not_brace c (H c Hc)) as [Hl Hr].
  apply eqc_neq in Hl, Hr. rewrite Hl, Hr. reflexivity.
Qed.

Lemma no_brace_cons (c : ascii) (x : str) :
  no_brace (c :: x) = true <-> (c <> lbrace /\ c <> rbrace) /\ no_brace x = true.
Proof.
  unfold no_brace. simpl. rewrite !andb_true_iff, !negb_true_iff, !eqc_neq.
  tauto.
Qed.

Lemma token_app (x r : str) :
  token x ++ r = lbrace :: lbrace :: x ++ rbrace :: rbrace :: r.
Proof. unfold token. simpl. rewrite <- app_assoc. reflexivity. Qed.

Lemma no_brace_not_in (x : str) :
  no_brace x = true -> ~ In lbrace (x ++ [rbrace; rbrace]).
Proof.
  induction x as [|c x IH]; intros H.
  - simpl. intros [E|[E|[]]]; discriminate E.
  - apply no_brace_cons in H as [[Hl _] H]. simpl. intros [E|Hin].
    + now apply Hl.
    + now apply IH.
Qed.

Lemma no_brace_inj (x1 x2 r1 r2 : str) :
  no_brace x1 = true -> no_brace x2 = true ->
  x1 ++ rbrace :: r1 = x2 ++ rbrace :: r2 -> x1 = x2 /\ r1 = r2.
Proof.
  revert x2. induction x1 as [|a x1 IH]; intros [|b x2] H1 H2; simpl; intros E.
  - injection E as ->. auto.
  - apply no_brace_cons in H2 as [[_ Hb] _]. injection E as E _.
    now symmetry in E.
  - apply no_brace_cons in H1 as [[_ Ha] _]. now injection E as E _.
  - apply no_brace_cons in H1 as [_ H1]. apply no_brace_cons in H2 as [_ H2].
    injection E as -> E. destruct (IH _ H1 H2 E) as [-> ->]. auto.
Qed.

Lemma token_inj (x1 x2 r1 r2 : str) :
  no_brace x1 = true -> no_brace x2 = true ->
  token x1 ++ r1 = token x2 ++ r2 -> x1 = x2 /\ r1 = r2.
Proof.
  intros H1 H2. rewrite !token_app. intros [= E].
  destruct (no_brace_inj _ _ _ _ H1 H2 E) as [-> [= ->]]. auto.
Qed.

(** A token that starts inside [p] and reaches into a following pair of
    opening braces in fact ends inside [p]. *)
Lemma token_before_braces (p x y r : str) :
  p <> [] -> no_brace x = true ->
  p ++ lbrace :: lbrace :: y = token x ++ r ->
  exists r0, p = token x ++ r0 /\ r = r0 ++ lbrace :: lbrace :: y.
Proof.
  intros Hp Hx E. symmetry in E.
  apply app_eq_app in E as [l [[E1 E2]|[E1 E2]]].
  - destruct l as [|c l].
    + rewrite app_nil_r in E1. exists []. rewrite app_nil_r. simpl in E2. auto.
    + exfalso. simpl in E2. injection E2 as <- E2.
      unfold token in E1. simpl in E1. destruct p as [|a p]; [contradiction|].
      simpl in E1. injection E1 as <- E1. destruct p as [|b p].
      * simpl in E1. injection E1 as E1. subst l.
        rewrite <- app_assoc in E2. simpl in E2.
        destruct x as [|c x]; simpl in E2; [discriminate|].
        injection E2 as <- _. apply no_brace_cons in Hx as [[Hl _] _]. now apply Hl.
      * simpl in E1. injection E1 as _ E1.
        apply (no_brace_not_in _ Hx). unfold rbrace. rewrite E1.
        apply in_or_app. right. left. reflexivity.
  - exists l. auto.
Qed.

Lemma braced_shrinks {A : Type} (m : str -> option (A * str)) :
  braced m -> shrinks m.
Proof.
  intros Hb s a r E. destruct (Hb _ _ _ E) as (x & _ & -> & _).
  rewrite token_app. simpl. rewrite length_app. simpl. lia.
Qed.

Lemma braced_boundary {A : Type} (m : str -> option (A * str)) (y : str) :
  braced m -> boundary m (lbrace :: lbrace :: y).
Proof.
  intros Hb p Hp. destruct (m p) as [[a r]|] eqn:E.
  - destruct (Hb _ _ _ E) as (x & _ & -> & Hx).
    rewrite <- app_assoc. apply Hx.
  - destruct (m (p ++ lbrace :: lbrace :: y)) as [[a r]|] eqn:E'; [|reflexivity].
    destruct (Hb _ _ _ E') as (x & Hnb & Hs & Hx).
    destruct (token_before_braces _ _ _ _ Hp Hnb Hs) as (r0 & -> & _).
    rewrite Hx in E. discriminate.
Qed.

(** Inside a token whose content has no brace no other token starts. *)
Lemma braced_inside {A : Type} (m : str -> option (A * str)) (t x1 x2 y : str) :
  braced m -> no_brace t = true ->
  token t = x1 ++ x2 -> x1 <> [] -> x2 <> [] -> m (x2 ++ y) = None.
Proof.
  intros Hb Ht E Hx1 Hx2.
  destruct (m (x2 ++ y)) as [[a r]|] eqn:Em; [exfalso|reflexivity].
  destruct (Hb _ _ _ Em) as (x & _ & Hs & _). rewrite token_app in Hs.
  unfold token in E. simpl in E.
  destruct x1 as [|a1 x1]; [contradiction|]. simpl in E. injection E as <- E.
  destruct x1 as [|a2 x1]; simpl in E.
  - subst x2. simpl in Hs. injection Hs as Hs.
    destruct t as [|c t]; simpl in Hs; [discriminate|].
    injection Hs as -> _. apply no_brace_cons in Ht as [[Hl _] _]. now apply Hl.
  - injection E as _ E.
    destruct x2 as [|c x2]; [contradiction|]. simpl in Hs. injection Hs as -> _.
    apply (no_brace_not_in _ Ht). unfold rbrace. rewrite E.
    apply in_or_app. right. left. reflexivity.
Qed.

(** Where a token is left alone, the walk leaves it as it is and goes on
    on both sides as it would without it. *)
Lemma scan_token_kept {A : Type} (m : str -> option (A * str)) (pre t suf : str) :
  braced m -> no_brace t = true -> m (token t ++ suf) = None ->
  Scan.scan m (pre ++ token t ++ suf)
  = Scan.scan m pre ++ map inl (token t) ++ Scan.scan m suf.
Proof.
  intros Hb Ht Hn. pose proof (braced_shrinks _ Hb) as Hs.
  rewrite token_app at 1.
  rewrite (scan_app _ _ _ Hs (braced_boundary _ _ Hb)).
  f_equal. rewrite <- token_app. apply scan_skip.
  intros [|c x1] x2 E Hx2.
  - simpl in E. subst x2. exact Hn.
  - apply (braced_inside _ _ _ _ _ Hb Ht E); [discriminate | assumption].
Qed.

(** Where a token is taken, the walk takes it and goes on on both sides
    as it would without it. *)
Lemma scan_token_taken {A : Type} (m : str -> option (A * str)) (pre t suf : str) (a : A) :
  braced m -> m (token t ++ suf) = Some (a, suf) ->
  Scan.scan m (pre ++ token t ++ suf)
  = Scan.scan m pre ++ inr a :: Scan.scan m suf.
Proof.
  intros Hb Hy. pose proof (braced_shrinks _ Hb) as Hs.
  rewrite token_app at 1.
  rewrite (scan_app _ _ _ Hs (braced_boundary _ _ Hb)).
  f_equal. rewrite <- token_app. apply (scan_match _ _ _ _ Hs Hy).
Qed.

(** ** The placeholder pattern *)

Lemma match_placeholder_Some (s w rest : str) :
  match_placeholder s = Some (w, rest) <-> s = token w ++ rest /\ word w = true.
Proof.
  unfold match_placeholder. split.
  - destruct (strip_prefix $"{{" s) as [t|] eqn:E1; [|discriminate].
    apply strip_prefix_Some in E1. subst s.
    destruct (span is_word t) as [w' r] eqn:E2.
    apply span_spec in E2 as (-> & Hw & _).
    destruct w' as [|c w']; [discriminate|].
    destruct (strip_prefix $"}}" r) as [rest'|] eqn:E3; [|discriminate].
    apply strip_prefix_Some in E3. subst r. intros [= <- <-].
    split; [|exact Hw]. unfold token. rewrite <- !app_assoc. reflexivity.
  - intros [-> Hw]. rewrite token_app.
    change (lbrace :: lbrace :: w ++ rbrace :: rbrace :: rest)
      with ($"{{" ++ w ++ $"}}" ++ rest).
    rewrite strip_prefix_app, span_app;
      [| apply word_forallb, Hw | reflexivity].
    destruct w as [|c w]; [discriminate|].
    rewrite strip_prefix_app. reflexivity.
Qed.

Lemma match_placeholder_head (c : ascii) (s : str) :
  c <> lbrace -> match_placeholder (c :: s) = None.
Proof.
  intros Hc.
  destruct (match_placeholder (c :: s)) as [[w r]|] eqn:E; [exfalso|reflexivity].
  apply match_placeholder_Some in E as [E _]. rewrite token_app in E.
  injection E as E _. contradiction.
Qed.

Lemma braced_placeholder : braced match_placeholder.
Proof.
  intros s w r E. apply match_placeholder_Some in E as [-> Hw].
  exists w. split; [apply word_no_brace, Hw|]. split; [reflexivity|].
  intros r2. apply match_placeholder_Some. auto.
Qed.

Lemma shrinks_placeholder : shrinks match_placeholder.
Proof. apply braced_shrinks, braced_placeholder. Qed.

Lemma sub_placeholders_match (repl s w rest : str) :
  match_placeholder s = Some (w, rest) ->
  sub_placeholders repl s = repl ++ sub_placeholders repl rest.
Proof.
  intros E. unfold sub_placeholders.
  rewrite (scan_match _ _ _ _ shrinks_placeholder E). reflexivity.
Qed.

Lemma sub_placeholders_pass (repl : str) (c : ascii) (t : str) :
  match_placeholder (c :: t) = None ->
  sub_placeholders repl (c :: t) = c :: sub_placeholders repl t.
Proof.
  intros E. unfold sub_placeholders. rewrite (scan_pass _ _ _ E). reflexivity.
Qed.

(** The final pass puts the sentinel where a placeholder stands and treats
    the text on both sides as it would on its own. *)
Lemma sub_placeholders_token (repl pre w suf : str) :
  word w = true ->
  sub_placeholders repl (pre ++ token w ++ suf)
  = sub_placeholders repl pre ++ repl ++ sub_placeholders repl suf.
Proof.
  intros Hw. unfold sub_placeholders.
  rewrite (scan_token_taken _ _ _ _ w braced_placeholder).
  - rewrite subst_app. reflexivity.
  - apply match_placeholder_Some. auto.
Qed.

(** The final pass keeps a token whose content has no brace and is not a
    word. *)
Lemma sub_placeholders_kept (repl pre t suf : str) :
  no_brace t = true -> word t = false ->
  sub_placeholders repl (pre ++ token t ++ suf)
  = sub_placeholders repl pre ++ token t ++ sub_placeholders repl suf.
Proof.
  intros Ht Hw. unfold sub_placeholders.
  rewrite (scan_token_kept _ _ _ _ braced_placeholder Ht).
  - rewrite !subst_app, subst_inl. reflexivity.
  - destruct (match_placeholder (token t ++ suf)) as [[w r]|] eqn:E; [|reflexivity].
    apply match_placeholder_Some in E as [E Hw'].
    apply token_inj in E as [-> _]; [congruence | assumption | apply word_no_brace, Hw'].
Qed.

(** Characters that are neither an opening brace nor the first character of
    the sentinel come out of the final pass where they went in. *)
Lemma sub_sentinel_through (x s y : str) :
  (forall c, In c x -> c <> lbrace /\ c <> "["%char) ->
  sub_placeholders sentinel s = x ++ y ->
  exists y0, s = x ++ y0 /\ y = sub_placeholders sentinel y0.
Proof.
  revert s. induction x as [|a x IH]; intros s Hx E.
  - exists s. auto.
  - destruct (Hx a (or_introl eq_refl)) as [Hl Hb].
    destruct s as [|b t]; [discriminate|].
    destruct (match_placeholder (b :: t)) as [[w r]|] eqn:Em.
    + rewrite (sub_placeholders_match _ _ _ _ Em) in E. injection E as E _.
      now symmetry in E.
    + rewrite (sub_placeholders_pass _ _ _ Em) in E. injection E as -> E.
      destruct (IH t) as (y0 & -> & ->); [intros c Hc; apply Hx; now right | exact E |].
      exists y0. auto.
Qed.

Lemma sub_sentinel_no_match (s : str) :
  match_placeholder (sub_placeholders sentinel s) = None.
Proof.
  destruct (match_placeholder (sub_placeholders sentinel s)) as [[w rest]|] eqn:E;
    [exfalso | reflexivity].
  apply match_placeholder_Some in E as [E Hw]. rewrite token_app in E.
  destruct s as [|c t]; [discriminate|].
  destruct (match_placeholder (c :: t)) as [[w1 r1]|] eqn:E1.
  { rewrite (sub_placeholders_match _ _ _ _ E1) in E. discriminate. }
  rewrite (sub_placeholders_pass _ _ _ E1) in E. injection E as -> E.
  destruct t as [|c2 t2]; [discriminate|].
  destruct (match_placeholder (c2 :: t2)) as [[w2 r2]|] eqn:E2.
  { rewrite (sub_placeholders_match _ _ _ _ E2) in E. discriminate. }
  rewrite (sub_placeholders_pass _ _ _ E2) in E. injection E as -> E.
  change (w ++ rbrace :: rbrace :: rest) with (w ++ [rbrace; rbrace] ++ rest) in E.
  rewrite app_assoc in E.
  apply sub_sentinel_through in E as (y0 & -> & _).
  - assert (Hs : match_placeholder (lbrace :: lbrace :: (w ++ [rbrace; rbrace]) ++ y0)
                 = Some (w, y0)).
    { apply match_placeholder_Some. split; [|exact Hw].
      rewrite token_app, <- app_assoc. reflexivity. }
    rewrite Hs in E1. discriminate.
  - intros c Hc. apply in_app_or in Hc as [Hc|Hc].
    + apply word_forallb in Hw. rewrite forallb_forall in Hw.
      specialize (Hw c Hc). split; intros ->; discriminate Hw.
    + simpl in Hc. destruct Hc as [<-|[<-|[]]]; split; discriminate.
Qed.

(** Nowhere in the result of the final pass does the pattern match. *)
Lemma sub_sentinel_clean (s p u : str) :
  sub_placeholders sentinel s = p ++ u -> match_placeholder u = None.
Proof.
  remember (length s) as k eqn:Hk. revert s p u Hk.
  induction k as [k IH] using lt_wf_ind. intros s p u Hk E.
  destruct p as [|a p].
  { simpl in E. subst u. apply sub_sentinel_no_match. }
  destruct s as [|c t]; [discriminate|].
  destruct (match_placeholder (c :: t)) as [[w r]|] eqn:Em.
  - rewrite (sub_placeholders_match _ _ _ _ Em) in E.
    pose proof (shrinks_placeholder _ _ _ Em) as Hr.
    symmetry in E. apply app_eq_app in E as [l [[E1 E2]|[E1 E2]]].
    + apply (IH (length r)) with (s := r) (p := l); [lia | reflexivity | exact E2].
    + destruct l as [|c' l].
      * simpl in E2. subst u. apply sub_sentinel_no_match.
      * subst u. simpl. apply match_placeholder_head. intros ->.
        assert (Hin : In lbrace sentinel).
        { rewrite E1. apply in_or_app. right. left. reflexivity. }
        simpl in Hin. repeat (destruct Hin as [Hin|Hin]; [discriminate Hin|]).
        exact Hin.
  - rewrite (sub_placeholders_pass _ _ _ Em) in E. injection E as _ E.
    apply (IH (length t)) with (s := t) (p := p); [simpl in Hk; lia | reflexivity | exact E].
Qed.

(** ** [str.replace] of a token *)

Lemma replace_token (k new s : str) :
  replace (token k) new s
  = Scan.subst (fun _ : unit => new) (Scan.scan (at_prefix (token k)) s).
Proof. reflexivity. Qed.

Lemma at_prefix_Some (old s : str) (a : unit) (r : str) :
  at_prefix old s = Some (a, r) <-> s = old ++ r.
Proof.
  unfold at_prefix. destruct a. destruct (strip_prefix old s) as [r'|] eqn:E; simpl.
  - apply strip_prefix_Some in E. subst s.
    split; [intros [= ->]; reflexivity | intros H].
    apply app_inv_head in H. now subst.
  - split; [discriminate | intros ->]. rewrite strip_prefix_app in E. discriminate.
Qed.

Lemma braced_at_prefix (k : str) :
  no_brace k = true -> braced (at_prefix (token k)).
Proof.
  intros Hk s a r E. apply at_prefix_Some in E. exists k.
  split; [exact Hk|]. split; [exact E|].
  intros r2. apply at_prefix_Some. reflexivity.
Qed.

(** Replacing the token of one key leaves the token of another alone and
    treats the text on both sides as it would on its own. *)
Lemma replace_token_kept (k new pre t suf : str) :
  no_brace k = true -> no_brace t = true -> k <> t ->
  replace (token k) new (pre ++ token t ++ suf)
  = replace (token k) new pre ++ token t ++ replace (token k) new suf.
Proof.
  intros Hk Ht Hne. rewrite !replace_token.
  rewrite (scan_token_kept _ _ _ _ (braced_at_prefix _ Hk) Ht).
  - rewrite !subst_app, subst_inl. reflexivity.
  - destruct (at_prefix (token k) (token t ++ suf)) as [[a r]|] eqn:E; [|reflexivity].
    apply at_prefix_Some in E. apply token_inj in E as [E _]; auto.
    now symmetry in E.
Qed.

Lemma fill_items_kept (items : dict value) (pre t suf : str) :
  no_brace t = true -> names_other_than t (keys items) ->
  fill_items (pre ++ token t ++ suf) items
  = fill_items pre items ++ token t ++ fill_items suf items.
Proof.
  intros Ht. revert pre suf.
  induction items as [|[k v] items IH]; intros pre suf Hks; [reflexivity|].
  inversion Hks as [|? ? [Hk Hne] Hks']; subst. cbn [fill_items].
  rewrite replace_token_kept by assumption. apply IH, Hks'.
Qed.

(** ** The caller's mapping *)

Lemma str_eqb_eq (a b : str) : str_eqb a b = true <-> a = b.
Proof.
  unfold str_eqb. destruct (list_eq_dec ascii_dec a b); split; congruence.
Qed.

Lemma dict_set_absent {V : Type} (k : str) (v : V) (d : dict V) :
  dict_mem k d = false -> dict_set k v d = d ++ [(k, v)].
Proof.
  unfold dict_mem. induction d as [|[k' v'] d IH]; simpl; [reflexivity|].
  destruct (str_eqb k k'); [discriminate|]. intros H. now rewrite IH.
Qed.

Lemma dict_get_app_other {V : Type} (k k' : str) (v : V) (d : dict V) :
  k <> k' -> dict_get k (d ++ [(k', v)]) = dict_get k d.
Proof.
  intros Hne. induction d as [|[k1 v1] d IH]; simpl.
  - destruct (str_eqb k k') eqn:E; [apply str_eqb_eq in E; contradiction | reflexivity].
  - destruct (str_eqb k k1); [reflexivity | exact IH].
Qed.

Lemma with_generation_date_keys (now : str) (data : dict value) :
  keys (with_generation_date now data) = keys data \/
  keys (with_generation_date now data) = keys data ++ [ $"generation_date"].
Proof.
  unfold with_generation_date.
  destruct (dict_mem $"generation_date" data) eqn:E; [now left | right].
  rewrite dict_set_absent by exact E. unfold keys. rewrite map_app. reflexivity.
Qed.

Example default_template_placeholders :
  length (extract_placeholders new) = 22 /\
  In $"generation_date" (extract_placeholders new).
Proof. vm_compute. intuition. Qed.

Example default_template_unfilled :
  findall_placeholders (fst (fst (fill_template new $"2024-01-01 10:00" []))) = [].
Proof. vm_compute. reflexivity. Qed.

(** ** Claims on template filling *)

(** C1 -- Placeholder completeness.  For every template and every data
    mapping, the empty one included, the text [fill_template] returns has
    no occurrence of a token [{{identifier}}] with an identifier of one or
    more characters of [[A-Za-z0-9_]]; and every such token that is left in
    the text once the supplied keys are substituted is replaced by the
    sentinel [[To be filled]], the text on both sides being treated as it
    would be on its own. *)
Theorem fill_template_placeholder_complete
  (self : processor) (now : str) (data : dict value) :
  let filled := fst (fst (fill_template self now data)) in
  (forall w, identifier w = true -> ~ occurs (token w) filled) /\
  (forall pre w suf, identifier w = true ->
     fill_items (template self) (with_generation_date now data)
       = pre ++ token w ++ suf ->
     filled = sub_placeholders sentinel pre ++ sentinel
              ++ sub_placeholders sentinel suf).
Proof.
  cbn. split.
  - intros w Hw (pre & suf & E). apply identifier_word in Hw.
    apply sub_sentinel_clean in E.
    assert (H : match_placeholder (token w ++ suf) = Some (w, suf))
      by (apply match_placeholder_Some; auto).
    change (match_placeholder (token w ++ suf) = None) in E. congruence.
  - intros pre w suf Hw ->. apply sub_placeholders_token, identifier_word, Hw.
Qed.

Lemma fill_template_placeholder_complete_witness :
  let self := mk_processor $"# {{title}} by {{who}}" [] in
  let filled := fst (fst (fill_template self $"2024-01-01 10:00" [])) in
  ~ occurs (token $"title") filled /\
  filled = $"# " ++ sentinel ++ sub_placeholders sentinel $" by {{who}}".
Proof.
  intros self filled.
  pose proof (fill_template_placeholder_complete self $"2024-01-01 10:00" []) as [H1 H2].
  split.
  - apply H1. reflexivity.
  - apply (H2 $"# " $"title" $" by {{who}}"); reflexivity.
Defined.

(** C9 -- [fill_template] changes the mapping of its caller: when the
    mapping has no key [generation_date], the key is added, with the
    formatted time stamp as its value; a mapping that has the key is left as
    it is; in both cases every other key keeps its value. *)
Theorem fill_template_mutates_data
  (self : processor) (now : str) (data : dict value) :
  let data' := snd (fill_template self now data) in
  (dict_mem $"generation_date" data = false ->
     data' = data ++ [( $"generation_date", VScalar (SStr now))]) /\
  (dict_mem $"generation_date" data = true -> data' = data) /\
  (forall k, k <> $"generation_date" -> dict_get k data' = dict_get k data).
Proof.
  intros data'. subst data'. unfold fill_template. cbn [snd].
  unfold with_generation_date.
  destruct (dict_mem $"generation_date" data) eqn:E.
  - repeat split; try discriminate; reflexivity.
  - rewrite dict_set_absent by exact E. repeat split; try discriminate.
    intros k Hk. apply dict_get_app_other, Hk.
Qed.

Lemma fill_template_mutates_data_witness :
  let data := [( $"title", VScalar (SStr $"Report"))] in
  let data' := snd (fill_template (mk_processor $"{{title}}" []) $"2024-01-01 10:00" data) in
  data' = data ++ [( $"generation_date", VScalar (SStr $"2024-01-01 10:00"))] /\
  dict_get $"title" data' = dict_get $"title" data.
Proof.
  intros data data'.
  pose proof (fill_template_mutates_data (mk_processor $"{{title}}" [])
                $"2024-01-01 10:00" data) as (H1 & _ & H3).
  split.
  - apply H1. reflexivity.
  - apply H3. discriminate.
Defined.

(** C10 -- A token in double braces whose inner text is not one or more
    word characters (the inner text being what stands between the braces,
    so without a brace of its own), such as [{{a-b}}] or [{{two words}}], is
    not replaced by the final sentinel pass; and when the keys of the data
    are names without braces other than that inner text, the token stands
    in the text [fill_template] returns as it stood in the template. *)
Theorem malformed_token_survives
  (self : processor) (now : str) (data : dict value) (pre t suf : str) :
  no_brace t = true -> word t = false ->
  sub_placeholders sentinel (pre ++ token t ++ suf)
    = sub_placeholders sentinel pre ++ token t ++ sub_placeholders sentinel suf
  /\
  (template self = pre ++ token t ++ suf ->
   names_other_than t (keys data) ->
   let data' := with_generation_date now data in
   let filled := fst (fst (fill_template self now data)) in
   filled = sub_placeholders sentinel (fill_items pre data') ++ token t
            ++ sub_placeholders sentinel (fill_items suf data')
   /\ occurs (token t) filled).
Proof.
  intros Ht Hw. split; [apply sub_placeholders_kept; assumption|].
  intros Htpl Hks. cbn.
  assert (Hks' : names_other_than t (keys (with_generation_date now data))).
  { destruct (with_generation_date_keys now data) as [-> | ->]; [exact Hks|].
    apply Forall_app. split; [exact Hks|]. constructor; [|constructor].
    split; [reflexivity|]. intros <-. discriminate Hw. }
  rewrite Htpl, (fill_items_kept _ _ _ _ Ht Hks'), sub_placeholders_kept by assumption.
  split; [reflexivity|]. eexists _, _. reflexivity.
Qed.

Lemma malformed_token_survives_witness :
  let self := mk_processor $"x {{a-b}} {{k}} y" [] in
  let data := [( $"k", VScalar (SStr $"v"))] in
  occurs (token $"a-b") (fst (fst (fill_template self $"2024-01-01 10:00" data))).
Proof.
  intros self data.
  refine (proj2 (proj2 (malformed_token_survives self $"2024-01-01 10:00" data
                          $"x " $"a-b" $" {{k}} y" eq_refl eq_refl) eq_refl _)).
  constructor; [|constructor]. split; [reflexivity | discriminate].
Defined.

(** ** The rendering of a mapping *)

Lemma dict_to_markdown_result (d : dict value) (level : nat) :
  _dict_to_markdown d level = join nl (dict_result d level).
Proof.
  unfold _dict_to_markdown. cbn [dict_markdown]. f_equal.
  induction d as [|[key v] d IH]; [reflexivity|].
  cbn [dict_result]. rewrite <- IH. destruct v; reflexivity.
Qed.

Lemma indent_length (level : nat) : length (indent level) = 2 * level.
Proof.
  unfold indent. induction level as [|n IH]; [reflexivity|].
  cbn [repeat concat]. rewrite length_app, IH. simpl. lia.
Qed.

(** ** The document library *)

Lemma text_run_safe (t : str) (bold italic : bool) :
  xml_text t = true -> text_run t bold italic = Ok (mk_run (stored t) bold italic).
Proof. intros H. unfold text_run. now rewrite H. Qed.

Lemma text_run_fail (t : str) (bold italic : bool) :
  xml_text t = false -> text_run t bold italic = Raise ValueError.
Proof. intros H. unfold text_run. now rewrite H. Qed.

Lemma add_paragraph_eq (doc : document) (text : str) (style : option str) :
  add_paragraph doc text style
  = if xml_text text
    then Ok (doc ++ [Paragraph style
                       (match text with [] => [] | _ :: _ => [plain (stored text)] end)])
    else Raise ValueError.
Proof.
  unfold add_paragraph. destruct text as [|c t]; [reflexivity|].
  unfold text_run. destruct (xml_text (c :: t)); reflexivity.
Qed.

Lemma add_list_to_doc_eq (doc : document) (items : list str) :
  _add_list_to_doc doc items
  = if safe_texts items then Ok (doc ++ map bullet items) else Raise ValueError.
Proof.
  revert doc. induction items as [|item items IH]; intros doc;
    cbn [_add_list_to_doc safe_texts forallb map].
  - now rewrite app_nil_r.
  - rewrite add_paragraph_eq. destruct (xml_text item); cbn [bind andb]; [|reflexivity].
    rewrite IH. fold (safe_texts items).
    destruct (safe_texts items); [|reflexivity].
    rewrite <- app_assoc. reflexivity.
Qed.

Lemma add_heading_eq (doc : document) (text : str) (level : nat) :
  level <= 9 ->
  _add_heading doc text level
  = if xml_text text then Ok (doc ++ [heading_block text level]) else Raise ValueError.
Proof.
  intros Hl. unfold _add_heading, heading_block.
  destruct (level <=? 3) eqn:E.
  - unfold add_heading. apply Nat.leb_le in Hl. rewrite Hl.
    unfold text_run. destruct (xml_text text); reflexivity.
  - apply add_paragraph_eq.
Qed.

Lemma add_heading_value_error (doc : document) (text : str) (level : nat) (e : exn) :
  _add_heading doc text level = Raise e -> e = ValueError.
Proof.
  unfold _add_heading, add_heading. destruct (level <=? 3).
  - destruct (level <=? 9); [|now intros [= <-]].
    unfold text_run. destruct (xml_text text); cbn [bind]; [discriminate|].
    now intros [= <-].
  - rewrite add_paragraph_eq. destruct (xml_text text); [discriminate|].
    now intros [= <-].
Qed.

Lemma add_heading_Ok (doc d : document) (text : str) (level : nat) :
  _add_heading doc text level = Ok d -> d = doc ++ [heading_block text level].
Proof.
  unfold _add_heading, heading_block, add_heading. destruct (level <=? 3).
  - destruct (level <=? 9); [|discriminate].
    unfold text_run. destruct (xml_text text); cbn [bind]; [|discriminate].
    now intros [= <-].
  - rewrite add_paragraph_eq. destruct (xml_text text); [|discriminate].
    now intros [= <-].
Qed.

Lemma add_paragraph_blocks (doc : document) (text : str) :
  _add_paragraph doc text
  = if xml_text text then Ok (doc ++ paragraph_blocks text) else Raise ValueError.
Proof.
  unfold _add_paragraph, paragraph_blocks. destruct text as [|c t].
  - cbn. now rewrite app_nil_r.
  - apply add_paragraph_eq.
Qed.

(** ** Tables *)

Lemma update_length {A : Type} (i : nat) (x : A) (l : list A) :
  length (update i x l) = length l.
Proof.
  revert i. induction l as [|y l IH]; intros [|i]; simpl; auto.
Qed.

Lemma Forall_update {A : Type} (P : A -> Prop) (i : nat) (x : A) (l : list A) :
  P x -> Forall P l -> Forall P (update i x l).
Proof.
  intros Hx. revert i. induction l as [|y l IH]; intros [|i] H;
    simpl; inversion H; subst; auto.
Qed.

(** How the loop over the cells of one row ends: well when the row has
    room for the data and every text is taken; with the out-of-bounds
    failure when the data run over the row and the texts up to there are
    taken; with the failure of the library at the first text it refuses. *)
Lemma fill_cells_cases (row_data : list str) (i j : nat) (row : list cell) :
  j <= length row ->
  match fill_cells i j row row_data with
  | Ok row' =>
      j + length row_data <= length row /\ length row' = length row /\
      safe_texts row_data = true
  | Raise IndexError =>
      length row < j + length row_data /\
      safe_texts (firstn (length row - j) row_data) = true
  | Raise ValueError => safe_texts row_data = false
  end.
Proof.
  revert j row. induction row_data as [|d ds IH]; intros j row Hj;
    cbn [fill_cells length safe_texts forallb].
  - repeat split; lia.
  - destruct (nth_error row j) as [c|] eqn:E.
    + assert (Hlt : j < length row) by (apply nth_error_Some; congruence).
      unfold set_text, text_run. destruct (xml_text d) eqn:Hd; cbn [bind andb];
        [|reflexivity].
      set (c' := if i =? 0 then set_bold [mk_run (stored d) false false]
                 else [mk_run (stored d) false false]).
      specialize (IH (S j) (update j c' row)). rewrite update_length in IH.
      specialize (IH Hlt).
      destruct (fill_cells i (S j) (update j c' row) ds) as [row'|[|]].
      * destruct IH as (H1 & H2 & H3). repeat split; [lia | exact H2 | exact H3].
      * destruct IH as (H1 & H2). split; [lia|].
        replace (length row - j) with (S (length row - S j)) by lia.
        unfold safe_texts in *. cbn [firstn forallb]. rewrite Hd. exact H2.
      * exact IH.
    + apply nth_error_None in E. split; [lia|].
      replace (length row - j) with 0 by lia. reflexivity.
Qed.

Lemma fill_rows_cases (data : list (list str)) (cols i : nat) (table : list (list cell)) :
  Forall (fun r => length r = cols) table ->
  i + length data <= length table ->
  match fill_rows i table data with
  | Ok table' =>
      Forall (fun r => length r <= cols) data /\
      forallb safe_texts data = true
  | Raise IndexError => Exists (fun r => cols < length r) data
  | Raise ValueError => forallb safe_texts data = false
  end.
Proof.
  revert i table. induction data as [|d ds IH]; intros i table Ht Hi;
    cbn [fill_rows length forallb] in *.
  - auto.
  - destruct (nth_error table i) as [row|] eqn:E;
      [|apply nth_error_None in E; lia].
    assert (Hrow : length row = cols).
    { rewrite Forall_forall in Ht. apply Ht. eapply nth_error_In, E. }
    pose proof (fill_cells_cases d i 0 row (Nat.le_0_l _)) as Hc.
    destruct (fill_cells i 0 row d) as [row'|[|]]; cbn [bind].
    + destruct Hc as (H1 & H2 & H3). rewrite H3. cbn [andb].
      specialize (IH (S i) (update i row' table)).
      rewrite update_length in IH.
      assert (Ht' : Forall (fun r => length r = cols) (update i row' table))
        by (apply Forall_update; [congruence | assumption]).
      specialize (IH Ht' ltac:(lia)).
      destruct (fill_rows (S i) (update i row' table) ds) as [t'|[|]].
      * destruct IH as [Ha Hb]. split; [|exact Hb].
        constructor; [simpl in H1; lia | exact Ha].
      * now apply Exists_cons_tl.
      * exact IH.
    + destruct Hc as [H1 _]. apply Exists_cons_hd. simpl in H1. lia.
    + now rewrite Hc.
Qed.

Lemma new_table_length (rows cols : nat) : length (new_table rows cols) = rows.
Proof. apply repeat_length. Qed.

Lemma new_table_cols (rows cols : nat) :
  Forall (fun r => length r = cols) (new_table rows cols).
Proof.
  apply Forall_forall. intros r Hr. apply repeat_spec in Hr. subst.
  apply repeat_length.
Qed.

Lemma cleaned_app (l1 l2 : list str) :
  cleaned (l1 ++ l2) = cleaned l1 ++ cleaned l2.
Proof. unfold cleaned. now rewrite filter_app, map_app. Qed.

Lemma Exists_not_Forall_le (cols : nat) (data : list (list str)) :
  Exists (fun r => cols < length r) data ->
  Forall (fun r => length r <= cols) data -> False.
Proof.
  intros He Hf. apply Exists_exists in He as (r & Hin & Hlt).
  rewrite Forall_forall in Hf. specialize (Hf r Hin). lia.
Qed.

(** The outcomes of [_add_table_to_doc] on the rows that are left. *)
Lemma add_table_cases (doc : document) (table_data : list str) :
  match _add_table_to_doc doc table_data with
  | Ok _ =>
      Forall (fun r => length r <= length (hd [] (cleaned table_data)))
        (cleaned table_data) /\
      forallb safe_texts (cleaned table_data) = true
  | Raise IndexError =>
      Exists (fun r => length (hd [] (cleaned table_data)) < length r)
        (cleaned table_data)
  | Raise ValueError => forallb safe_texts (cleaned table_data) = false
  end.
Proof.
  unfold _add_table_to_doc.
  destruct (cleaned table_data) as [|header rest] eqn:E; [auto|]. cbn [hd].
  pose proof (fill_rows_cases (header :: rest) (length header) 0
                (new_table (length (header :: rest)) (length header))
                (new_table_cols _ _)) as H.
  rewrite new_table_length in H. specialize (H (Nat.le_refl _)).
  destruct (fill_rows 0 _ (header :: rest)) as [t|[|]]; exact H.
Qed.

Lemma update_split {A : Type} (i : nat) (x : A) (l : list A) :
  i < length l -> update i x l = firstn i l ++ x :: skipn (S i) l.
Proof.
  revert i. induction l as [|y l IH]; intros [|i] H; simpl in *; try lia.
  - reflexivity.
  - rewrite IH by lia. reflexivity.
Qed.

Lemma nth_error_update_other {A : Type} (i j : nat) (x : A) (l : list A) :
  i <> j -> nth_error (update i x l) j = nth_error l j.
Proof.
  revert i j. induction l as [|y l IH]; intros [|i] [|j] H; simpl; try reflexivity.
  - contradiction.
  - apply IH. lia.
Qed.

Lemma fill_cells_render (row_data : list str) (i j : nat) (row : list cell) :
  safe_texts row_data = true ->
  j + length row_data <= length row ->
  fill_cells i j row row_data
  = Ok (firstn j row ++ map (fun d => [mk_run (stored d) (i =? 0) false]) row_data
        ++ skipn (j + length row_data) row).
Proof.
  revert j row. induction row_data as [|d ds IH]; intros j row Hs H; cbn [fill_cells].
  - cbn [length map app]. rewrite Nat.add_0_r, firstn_skipn. reflexivity.
  - cbn [length] in H. unfold safe_texts in Hs. cbn [forallb] in Hs.
    apply andb_true_iff in Hs as [Hd Hs].
    destruct (nth_error row j) as [c|] eqn:E;
      [|apply nth_error_None in E; lia].
    unfold set_text. rewrite text_run_safe by exact Hd. cbn [bind].
    rewrite IH by (try exact Hs; rewrite update_length; cbn [length]; lia).
    assert (Hj : j < length row) by lia.
    rewrite (update_split j _ row Hj).
    assert (Hl : length (firstn j row) = j) by (apply firstn_length_le; lia).
    f_equal.
    replace (S j) with (length (firstn j row) + 1) at 1 by lia.
    rewrite firstn_app_2. cbn [firstn]. rewrite <- app_assoc. cbn [app map].
    f_equal. f_equal.
    + destruct (i =? 0); reflexivity.
    + f_equal. cbn [length].
      replace (S j + length ds) with (length (firstn j row) + S (length ds)) by lia.
      rewrite skipn_app, skipn_all2 by lia.
      replace (length (firstn j row) + S (length ds) - length (firstn j row))
        with (S (length ds)) by lia.
      rewrite app_nil_l, skipn_cons, skipn_skipn. f_equal. lia.
Qed.

Lemma skipn_repeat {A : Type} (x : A) (n k : nat) :
  skipn k (repeat x n) = repeat x (n - k).
Proof.
  revert k. induction n as [|n IH]; intros [|k]; simpl; auto.
Qed.

Lemma fill_rows_render (data : list (list str)) (cols i : nat) (table : list (list cell)) :
  forallb safe_texts data = true ->
  Forall (fun r => length r <= cols) data ->
  i + length data <= length table ->
  (forall j, i <= j -> j < length table -> nth_error table j = Some (repeat [] cols)) ->
  fill_rows i table data
  = Ok (firstn i table ++ render_from cols i data ++ skipn (i + length data) table).
Proof.
  revert i table. induction data as [|d ds IH]; intros i table Hs Hd Hi Ht;
    cbn [fill_rows render_from].
  - cbn [length app]. rewrite Nat.add_0_r, firstn_skipn. reflexivity.
  - cbn [length] in Hi. inversion Hd as [|? ? Hd1 Hd2]; subst.
    cbn [forallb] in Hs. apply andb_true_iff in Hs as [Hs1 Hs2].
    rewrite (Ht i) by lia.
    rewrite fill_cells_render by (try exact Hs1; rewrite repeat_length; simpl; lia).
    cbn [bind firstn app]. rewrite Nat.add_0_l, skipn_repeat.
    fold (render_row (i =? 0) cols d).
    rewrite IH.
    + assert (Hlt : i < length table) by lia.
      rewrite (update_split i _ table Hlt).
      assert (Hl : length (firstn i table) = i) by (apply firstn_length_le; lia).
      f_equal.
      replace (S i) with (length (firstn i table) + 1) at 1 by lia.
      rewrite firstn_app_2. cbn [firstn]. rewrite <- app_assoc. cbn [app].
      f_equal. f_equal. f_equal. cbn [length].
      replace (S i + length ds) with (length (firstn i table) + S (length ds)) by lia.
      rewrite skipn_app, skipn_all2 by lia.
      replace (length (firstn i table) + S (length ds) - length (firstn i table))
        with (S (length ds)) by lia.
      rewrite app_nil_l, skipn_cons, skipn_skipn. f_equal. lia.
    + exact Hs2.
    + exact Hd2.
    + rewrite update_length. lia.
    + intros j Hj1 Hj2. rewrite update_length in Hj2.
      rewrite nth_error_update_other by lia. apply Ht; lia.
Qed.

Lemma new_table_nth (rows cols j : nat) :
  j < rows -> nth_error (new_table rows cols) j = Some (repeat [] cols).
Proof.
  intros H. unfold new_table. revert j H.
  induction rows as [|n IH]; intros [|j] H; simpl; try lia; [reflexivity|].
  apply IH. lia.
Qed.

Lemma render_from_succ (cols i : nat) (data : list (list str)) :
  render_from cols (S i) data = map (render_row false cols) data.
Proof.
  revert i. induction data as [|d ds IH]; intros i; cbn [render_from map];
    [reflexivity|].
  rewrite IH. reflexivity.
Qed.

(** The table added when every text is taken and no row runs over. *)
Lemma add_table_rendered (doc : document) (header : list str) (rest : list (list str)) :
  forallb safe_texts (header :: rest) = true ->
  Forall (fun row => length row <= length header) (header :: rest) ->
  bind (fill_rows 0 (new_table (length (header :: rest)) (length header))
          (header :: rest))
    (fun table' => Ok (doc ++ [Table $"Light Shading Accent 1" table']))
  = Ok (doc ++ [Table $"Light Shading Accent 1"
                  (render_row true (length header) header
                   :: map (render_row false (length header)) rest)]).
Proof.
  intros Hs H.
  rewrite (fill_rows_render (header :: rest) (length header)); try assumption.
  - rewrite Nat.add_0_l, skipn_all2 by (rewrite new_table_length; lia).
    cbn [firstn app bind].
    rewrite app_nil_r. cbn [render_from Nat.eqb]. rewrite render_from_succ.
    reflexivity.
  - rewrite new_table_length. cbn [length]. lia.
  - intros j _ Hj. rewrite new_table_length in Hj. apply new_table_nth, Hj.
Qed.

(** C5 (as the program has it) -- When a buffered table is rendered and
    some row has more cells than the column count taken from the first
    (header) row, the rendering fails: with the out-of-bounds failure of the
    document primitive when the document library takes every cell text (a
    text with a control character is refused with a failure of its own,
    which may come first).  When every row has at most that many cells no
    out-of-bounds failure is raised, and if every cell text is taken the
    table is rendered, a row with fewer cells leaving its last cells
    empty. *)
Theorem table_row_length_failure (doc : document) (table_data : list str) :
  let data := cleaned table_data in
  let cols := length (hd [] data) in
  (Exists (fun row => cols < length row) data ->
     exists e, _add_table_to_doc doc table_data = Raise e) /\
  (Exists (fun row => cols < length row) data ->
   forallb safe_texts data = true ->
     _add_table_to_doc doc table_data = Raise IndexError) /\
  (Forall (fun row => length row <= cols) data ->
     _add_table_to_doc doc table_data <> Raise IndexError) /\
  (Forall (fun row => length row <= cols) data ->
   forallb safe_texts data = true ->
     _add_table_to_doc doc table_data
     = Ok (match data with
           | [] => doc
           | header :: rest =>
               doc ++ [Table $"Light Shading Accent 1"
                         (render_row true cols header
                          :: map (render_row false cols) rest)]
           end)).
Proof.
  cbv zeta. pose proof (add_table_cases doc table_data) as Hc.
  split; [|split; [|split]].
  - intros He. destruct (_add_table_to_doc doc table_data) as [d|e]; [|eauto].
    destruct Hc as [Hf _]. destruct (Exists_not_Forall_le _ _ He Hf).
  - intros He Hs. destruct (_add_table_to_doc doc table_data) as [d|[|]].
    + destruct Hc as [Hf _]. destruct (Exists_not_Forall_le _ _ He Hf).
    + reflexivity.
    + congruence.
  - intros Hf E. rewrite E in Hc. destruct (Exists_not_Forall_le _ _ Hc Hf).
  - intros Hf Hs. clear Hc. unfold _add_table_to_doc.
    destruct (cleaned table_data) as [|header rest]; [reflexivity|].
    cbn [hd] in *. apply add_table_rendered; assumption.
Qed.

Lemma table_row_length_failure_witness :
  _add_table_to_doc [] [ $"| H1 | H2 |"; $"| a | b | c |"] = Raise IndexError /\
  _add_table_to_doc [] [ $"| H1 | H2 |"; $"| a |"]
  = Ok [Table $"Light Shading Accent 1"
          [[[mk_run $"H1" true false]; [mk_run $"H2" true false]];
           [[mk_run $"a" false false]; []]]].
Proof.
  split.
  - apply (proj1 (proj2 (table_row_length_failure [] [ $"| H1 | H2 |"; $"| a | b | c |"]))).
    + apply Exists_cons_tl, Exists_cons_hd. vm_compute. lia.
    + reflexivity.
  - apply (proj2 (proj2 (proj2 (table_row_length_failure [] [ $"| H1 | H2 |"; $"| a |"])))).
    + repeat constructor.
    + reflexivity.
Defined.

(** C5 as stated fails: the second row has one cell where the header has
    two, and the table is rendered without a failure. *)
Lemma table_shorter_row_renders :
  let rows := [ $"| H1 | H2 |"; $"| a |"] in
  length (nth 1 (cleaned rows) []) < length (hd [] (cleaned rows)) /\
  _add_table_to_doc [] rows
    = Ok [Table $"Light Shading Accent 1"
            [[[mk_run $"H1" true false]; [mk_run $"H2" true false]];
             [[plain $"a"]; []]]] /\
  _add_table_to_doc [] rows <> Raise IndexError.
Proof.
  split; [vm_compute; lia|]. split; [reflexivity | discriminate].
Qed.

(** C6 (as the program has it) -- Filling a template that is only the
    placeholder [y] with the mapping [{"A": {"B": "1"}}] gives the two
    lines [- **A:**] and [  - **B:** 1], the second indented by two spaces:
    for a nested mapping the renderer puts the bullet header line and then
    the rendering of the nested mapping one level deeper, the indent being
    two spaces for each level. *)
Theorem nested_mapping_rendering :
  (forall (now old : str),
     fst (fst (fill_template (mk_processor $"{{y}}" old) now
                 [( $"y", VDict [( $"A", VDict [( $"B", VScalar (SStr $"1"))])])]))
     = $"- **A:**" ++ nl ++ $"  - **B:** 1") /\
  (forall d level, _dict_to_markdown d level = join nl (dict_result d level)) /\
  (forall key n rest level,
     dict_result ((key, VDict n) :: rest) level
     = (indent level ++ $"- **" ++ key ++ $":**")
       :: _dict_to_markdown n (S level) :: dict_result rest level) /\
  (forall level, length (indent level) = 2 * level).
Proof.
  split; [intros; reflexivity|].
  split; [exact dict_to_markdown_result|].
  split; [reflexivity | exact indent_length].
Qed.

(** C6 as stated fails: the text is not the one without the indent. *)
Lemma nested_mapping_not_flat :
  fst (fst (fill_template (mk_processor $"{{y}}" []) $"2024-01-01 10:00"
              [( $"y", VDict [( $"A", VDict [( $"B", VScalar (SStr $"1"))])])]))
  <> $"- **A:**" ++ nl ++ $"- **B:** 1".
Proof. vm_compute. discriminate. Qed.

(** C7 -- Table extraction.  For the buffered rows [| H1 | H2 |],
    [| --- | --- |], [| a | b |]: the row with [---] is discarded (as is any
    row that contains it), each other row is split on the pipe with the
    first and the last segment dropped and the cells trimmed, and the table
    added has exactly two rows and two columns, the header cells [H1] and
    [H2] bold, then the data row [a], [b]. *)
Theorem table_extraction (doc : document) :
  let rows := [ $"| H1 | H2 |"; $"| --- | --- |"; $"| a | b |"] in
  split_on pipe $"| H1 | H2 |" = [ $""; $" H1 "; $" H2 "; $""] /\
  cleaned rows = [[ $"H1"; $"H2"]; [ $"a"; $"b"]] /\
  _add_table_to_doc doc rows
    = Ok (doc ++ [Table $"Light Shading Accent 1"
                    [[[mk_run $"H1" true false]; [mk_run $"H2" true false]];
                     [[plain $"a"]; [plain $"b"]]]]) /\
  (forall l1 row l2, contains $"---" row = true ->
     cleaned (l1 ++ row :: l2) = cleaned l1 ++ cleaned l2).
Proof.
  repeat split; try reflexivity.
  intros l1 row l2 H. rewrite cleaned_app. f_equal.
  unfold cleaned. cbn [filter]. rewrite H. reflexivity.
Qed.

Lemma table_extraction_witness :
  cleaned ([ $"| H1 | H2 |"] ++ $"|---|---|" :: [ $"| a | b |"])
  = cleaned [ $"| H1 | H2 |"] ++ cleaned [ $"| a | b |"].
Proof.
  apply (proj2 (proj2 (proj2 (table_extraction [])))). reflexivity.
Defined.


(** ** Inline spans *)

Lemma until_stars_spec (s x r : str) :
  until_stars s = Some (x, r) -> s = x ++ $"**" ++ r.
Proof.
  revert x r. induction s as [|c s IH]; intros x r; [discriminate|].
  cbn [until_stars].
  destruct (strip_prefix $"**" (c :: s)) as [r'|] eqn:E.
  - intros [= <- <-]. apply strip_prefix_Some in E. exact E.
  - destruct (eqc c newline); [discriminate|].
    destruct (until_stars s) as [[x' r']|]; [|discriminate].
    intros [= <- <-]. rewrite (IH _ _ eq_refl). reflexivity.
Qed.

Lemma match_bold_spec (s d r : str) :
  match_bold s = Some (d, r) ->
  s = d ++ r /\ exists x, d = $"**" ++ x ++ $"**".
Proof.
  unfold match_bold.
  destruct (strip_prefix $"**" s) as [t|] eqn:E; [|discriminate].
  apply strip_prefix_Some in E. subst s.
  destruct (until_stars t) as [[x r']|] eqn:E; [|discriminate].
  apply until_stars_spec in E. subst t. intros [= <- <-].
  split; [|exists x; reflexivity]. simpl. rewrite <- app_assoc. reflexivity.
Qed.

Lemma shrinks_bold : shrinks match_bold.
Proof.
  intros s d r E. apply match_bold_spec in E as [-> [x ->]].
  rewrite !length_app. simpl. lia.
Qed.

(** The pieces of a split, put together again, are the subject. *)
Lemma pieces_concat {A : Type} (m : str -> option (A * str)) (f : A -> str) :
  shrinks m -> (forall s a r, m s = Some (a, r) -> s = f a ++ r) ->
  forall s, concat (Scan.pieces f (Scan.scan m s)) = s.
Proof.
  intros Hm Hf s. remember (length s) as k eqn:Hk. revert s Hk.
  induction k as [k IH] using lt_wf_ind. intros [|c t] Hk; [reflexivity|].
  destruct (m (c :: t)) as [[a r]|] eqn:E.
  - rewrite (scan_match _ _ _ _ Hm E). cbn [Scan.pieces concat app].
    pose proof (Hm _ _ _ E) as Hr.
    rewrite (IH (length r)) by (try reflexivity; lia).
    symmetry. apply Hf, E.
  - rewrite (scan_pass _ _ _ E). cbn [Scan.pieces].
    specialize (IH (length t)). simpl in Hk.
    assert (Ht : concat (Scan.pieces f (Scan.scan m t)) = t)
      by (apply IH; [lia | reflexivity]).
    destruct (Scan.pieces f (Scan.scan m t)) as [|p ps]; simpl in *;
      now rewrite <- Ht.
Qed.

Lemma startswith_app (p r : str) : startswith (p ++ r) p = true.
Proof. apply startswith_true. eauto. Qed.

Lemma endswith_app (r p : str) : endswith (r ++ p) p = true.
Proof. unfold endswith. rewrite rev_app_distr. apply startswith_app. Qed.

Lemma slice_wrapped (a b x : str) :
  slice (length a) (length b) (a ++ x ++ b) = x.
Proof.
  unfold slice. rewrite skipn_app, skipn_all, Nat.sub_diag. simpl.
  rewrite !length_app.
  replace (length a + (length x + length b) - length a - length b)
    with (length x + 0) by lia.
  rewrite firstn_app_2. simpl. apply app_nil_r.
Qed.

Lemma run_of_part_bold (x : str) :
  run_of_part ( $"**" ++ x ++ $"**") = text_run x true false.
Proof.
  unfold run_of_part. rewrite startswith_app.
  rewrite (app_assoc _ x), endswith_app, <- app_assoc. cbn [andb].
  rewrite (slice_wrapped $"**" $"**" x : slice 2 2 ( $"**" ++ x ++ $"**") = x).
  reflexivity.
Qed.

Lemma run_of_part_italic (x : str) :
  startswith ( $"*" ++ x ++ $"*") $"**" = false ->
  run_of_part ( $"*" ++ x ++ $"*") = text_run x false true.
Proof.
  intros H. unfold run_of_part. rewrite H. cbn [andb negb].
  rewrite startswith_app.
  rewrite (app_assoc _ x), endswith_app, <- app_assoc. cbn [andb].
  rewrite (slice_wrapped $"*" $"*" x : slice 1 1 ( $"*" ++ x ++ $"*") = x).
  reflexivity.
Qed.

Lemma startswith_shorter (s p q : str) :
  startswith s (p ++ q) = true -> startswith s p = true.
Proof.
  rewrite !startswith_true. intros [r ->]. rewrite <- app_assoc. eauto.
Qed.

Lemma run_of_part_plain (part : str) :
  startswith part $"*" = false \/ endswith part $"*" = false ->
  run_of_part part = text_run part false false.
Proof.
  intros H. unfold run_of_part.
  assert (H1 : startswith part $"**" && endswith part $"**" = false).
  { apply andb_false_iff. destruct H as [H|H]; [left | right].
    - destruct (startswith part $"**") eqn:E; [|reflexivity].
      apply (startswith_shorter _ $"*" $"*") in E. congruence.
    - destruct (endswith part $"**") eqn:E; [|reflexivity].
      unfold endswith in *. apply (startswith_shorter _ $"*" $"*") in E.
      simpl in *. congruence. }
  rewrite H1. destruct H as [-> | ->]; [reflexivity|].
  rewrite andb_false_r. reflexivity.
Qed.

(** C4 -- A line is meant to be split into bold, italic and plain runs.
    The program splits on the spans in double asterisks only, and looks for
    the single asterisks of an italic span at the two ends of a whole
    piece: in the line [**bold** and *italic* and plain] the span
    [*italic*] stands inside a piece and stays in a plain run with its
    asterisks, after an empty plain run and the bold run [bold]. *)
Theorem inline_italic_span_not_split :
  split_bold $"**bold** and *italic* and plain"
  = [ $""; $"**bold**"; $" and *italic* and plain"] /\
  _add_formatted_paragraph [] $"**bold** and *italic* and plain"
  = Ok [Paragraph None [plain $""; mk_run $"bold" true false;
                        plain $" and *italic* and plain"]] /\
  _add_formatted_paragraph [] $"**bold** and *italic* and plain"
  <> Ok [Paragraph None [mk_run $"bold" true false; plain $" and ";
                         mk_run $"italic" false true; plain $" and plain"]].
Proof.
  split; [reflexivity|]. split; [reflexivity|]. vm_compute. discriminate.
Qed.

(** ** The walk over the lines *)

Lemma flush_list_eq (st : locals) :
  flush_list st
  = bind (_add_list_to_doc (doc st) (current_list st))
      (fun d => Ok (mk_locals d [] (in_table st) (table_data st))).
Proof.
  unfold flush_list. destruct st as [d [|item items] t td]; reflexivity.
Qed.

Lemma after_flush_eq (st : locals) (k : document -> result document) :
  bind (flush_list st)
    (fun st1 => bind (k (doc st1))
       (fun d => Ok (mk_locals d (current_list st1) (in_table st1) (table_data st1))))
  = after_flush st k.
Proof.
  rewrite flush_list_eq. unfold after_flush.
  destruct (_add_list_to_doc (doc st) (current_list st)); reflexivity.
Qed.

Lemma after_flush_Ok (st st' : locals) (k : document -> result document) :
  after_flush st k = Ok st' ->
  exists d', k (doc st ++ map bullet (current_list st)) = Ok d' /\
             st' = mk_locals d' [] (in_table st) (table_data st).
Proof.
  unfold after_flush. rewrite add_list_to_doc_eq.
  destruct (safe_texts (current_list st)); [|discriminate]. cbn [bind].
  destruct (k _) as [d'|e]; [|discriminate]. cbn [bind].
  intros [= <-]. eauto.
Qed.

Lemma after_flush_safe (st : locals) (k : document -> result document) :
  safe_texts (current_list st) = true ->
  after_flush st k
  = bind (k (doc st ++ map bullet (current_list st)))
      (fun d' => Ok (mk_locals d' [] (in_table st) (table_data st))).
Proof.
  intros H. unfold after_flush. rewrite add_list_to_doc_eq, H. reflexivity.
Qed.

Lemma step_blank (st : locals) (line : str) :
  strip line = [] -> step st line = after_flush st Ok.
Proof.
  intros H. unfold step. rewrite H, flush_list_eq. unfold after_flush.
  destruct (_add_list_to_doc (doc st) (current_list st)); reflexivity.
Qed.

Lemma step_heading (st : locals) (line : str) :
  strip line <> [] -> startswith (strip line) $"#" = true ->
  step st line
  = after_flush st
      (fun d => _add_heading d (strip (lstrip_char hash (strip line)))
                  (length (first_word (strip line)))).
Proof.
  intros Hne H. unfold step. destruct (strip line) as [|c l]; [contradiction|].
  rewrite H.
  exact (after_flush_eq st
           (fun d => _add_heading d (strip (lstrip_char hash (c :: l)))
                       (length (first_word (c :: l))))).
Qed.

Lemma step_table_row (st : locals) (line : str) :
  strip line <> [] -> startswith (strip line) $"#" = false ->
  contains $"|" (strip line) = true ->
  step st line
  = Ok (mk_locals (doc st) (current_list st) true
          ((if in_table st then table_data st else []) ++ [strip line])).
Proof.
  intros Hne H1 H2. unfold step. destruct (strip line) as [|c l]; [contradiction|].
  rewrite H1, H2. reflexivity.
Qed.

Lemma step_table_close (st : locals) (line : str) :
  strip line <> [] -> startswith (strip line) $"#" = false ->
  contains $"|" (strip line) = false -> in_table st = true ->
  step st line
  = bind (flush_table st)
      (fun d => bind (_add_paragraph d (strip line))
         (fun d' => Ok (mk_locals d' (current_list st) false []))).
Proof.
  intros Hne H1 H2 H3. unfold step. destruct (strip line) as [|c l]; [contradiction|].
  rewrite H1, H2, H3. reflexivity.
Qed.

Lemma step_item (st : locals) (line : str) :
  strip line <> [] -> startswith (strip line) $"#" = false ->
  contains $"|" (strip line) = false -> in_table st = false ->
  is_item (strip line) = true ->
  exists item,
    step st line
    = Ok (mk_locals (doc st) (current_list st ++ [item]) false (table_data st)).
Proof.
  intros Hne H1 H2 H3 H4. unfold step. destruct (strip line) as [|c l]; [contradiction|].
  rewrite H1, H2, H3. cbn [andb]. unfold is_item in H4.
  destruct (startswith (c :: l) $"- " || startswith (c :: l) $"* "
            || startswith (c :: l) $"+ "); [eauto|].
  simpl in H4. rewrite H4. eauto.
Qed.

Lemma step_paragraph (st : locals) (line : str) :
  strip line <> [] -> startswith (strip line) $"#" = false ->
  contains $"|" (strip line) = false -> in_table st = false ->
  is_item (strip line) = false ->
  step st line
  = after_flush st
      (fun d => (if contains $"**" (strip line)
                 then _add_formatted_paragraph else _add_paragraph) d (strip line)).
Proof.
  intros Hne H1 H2 H3 H4. unfold step. destruct (strip line) as [|c l]; [contradiction|].
  rewrite H1, H2, H3. cbn [andb]. unfold is_item in H4.
  apply orb_false_iff in H4 as [H4 H5]. rewrite H4, H5.
  destruct (contains $"**" (c :: l)).
  - exact (after_flush_eq st (fun d => _add_formatted_paragraph d (c :: l))).
  - exact (after_flush_eq st (fun d => _add_paragraph d (c :: l))).
Qed.

Lemma finish_eq (st : locals) :
  finish st
  = bind (_add_list_to_doc (doc st) (current_list st))
      (fun d =>
         if in_table st && negb (match table_data st with [] => true | _ => false end)
         then _add_table_to_doc d (table_data st)
         else Ok d).
Proof.
  unfold finish. rewrite flush_list_eq.
  destruct (_add_list_to_doc (doc st) (current_list st)); reflexivity.
Qed.

Lemma step_table_inv (st st' : locals) (line : str) :
  table_inv st -> step st line = Ok st' -> table_inv st'.
Proof.
  intros Hinv Hs. unfold table_inv in *.
  destruct (strip line) as [|c l] eqn:El.
  { rewrite step_blank in Hs by exact El.
    apply after_flush_Ok in Hs as (d & _ & ->). exact Hinv. }
  assert (Hne : strip line <> []) by (rewrite El; discriminate).
  clear El c l.
  destruct (startswith (strip line) $"#") eqn:Hh.
  { rewrite step_heading in Hs by assumption.
    apply after_flush_Ok in Hs as (d & _ & ->). exact Hinv. }
  destruct (contains $"|" (strip line)) eqn:Hp.
  { rewrite step_table_row in Hs by assumption. injection Hs as <-. discriminate. }
  destruct (in_table st) eqn:Hin.
  { rewrite step_table_close in Hs by assumption.
    destruct (flush_table st) as [d|e]; [|discriminate]. cbn [bind] in Hs.
    destruct (_add_paragraph d (strip line)) as [d'|e]; [|discriminate].
    cbn [bind] in Hs. injection Hs as <-. reflexivity. }
  destruct (is_item (strip line)) eqn:Hi.
  - destruct (step_item st line Hne Hh Hp Hin Hi) as [item Hitem].
    rewrite Hitem in Hs. injection Hs as <-. intros _. now apply Hinv.
  - rewrite step_paragraph in Hs by assumption.
    apply after_flush_Ok in Hs as (d & _ & ->). cbn [in_table table_data].
    intros _. now apply Hinv.
Qed.

Lemma run_lines_table_inv (lines : list str) (st st' : locals) :
  table_inv st -> run_lines st lines = Ok st' -> table_inv st'.
Proof.
  revert st. induction lines as [|line lines IH]; intros st Hinv; cbn [run_lines].
  - intros [= <-]. exact Hinv.
  - destruct (step st line) as [st1|e] eqn:Hs; [|discriminate].
    cbn [bind]. apply IH. eapply step_table_inv; eassumption.
Qed.

Lemma takewhile_repeat (f : ascii -> bool) (c : ascii) (n : nat) (rest : str) :
  f c = true -> stops f rest -> takewhile f (repeat c n ++ rest) = repeat c n.
Proof.
  intros Hc Hr. induction n as [|n IH]; cbn [repeat app takewhile].
  - destruct rest as [|a r]; [reflexivity|]. cbn [takewhile].
    simpl in Hr. rewrite Hr. reflexivity.
  - rewrite Hc, IH. reflexivity.
Qed.

(** A heading whose [#] characters are followed by white space (or by
    nothing) gets the count of these characters as its level. *)
Lemma heading_level_spaced (n : nat) (rest : str) :
  stops (fun c => negb (is_space c)) rest ->
  length (first_word (repeat hash (S n) ++ rest)) = S n /\
  leading_hashes (repeat hash (S n) ++ rest) = S n.
Proof.
  intros Hr. unfold first_word, leading_hashes.
  assert (Hl : lstrip (repeat hash (S n) ++ rest) = repeat hash (S n) ++ rest)
    by reflexivity.
  rewrite Hl, !takewhile_repeat, repeat_length; auto using eqc_refl.
  destruct rest as [|a r]; [exact I|]. cbn [stops] in *.
  apply negb_false_iff in Hr. apply eqc_neq. intros <-. discriminate Hr.
Qed.

Example heading_three : step init $"### Title"
  = Ok (mk_locals [Heading 3 $"Title"] [] false []).
Proof. reflexivity. Qed.

Example heading_five : step init $"##### Deep"
  = Ok (mk_locals [Paragraph (Some $"Heading 3") [plain $"Deep"]] [] false []).
Proof. reflexivity. Qed.

(** C2 -- The level of a heading line is meant to be the count of its
    leading [#] characters.  The program takes the length of the first
    word of the line instead: for [#Title], which has one leading [#], the
    level is 6, and the line becomes a paragraph in the style of a level-3
    heading where a native heading of level 1 is due. *)
Theorem heading_level_without_space :
  leading_hashes $"#Title" = 1 /\
  length (first_word $"#Title") = 6 /\
  step init $"#Title"
  = Ok (mk_locals [Paragraph (Some $"Heading 3") [plain $"Title"]] [] false []) /\
  step init $"#Title" <> Ok (mk_locals [Heading 1 $"Title"] [] false []).
Proof. repeat split; try reflexivity. vm_compute. discriminate. Qed.

(** C8 -- Blank lines.  A blank line flushes the open list buffer into the
    document (one bulleted paragraph for each item; the flush fails when the
    document library refuses the text of an item) and leaves the table
    buffer and its flag as they are.  An open table stays open, unchanged
    or one row longer, unless the line is not blank and has no pipe: only
    then is the table closed; and at the end of the input an open table is
    added to the document, after the open list. *)
Theorem blank_line_handling :
  (forall st line, strip line = [] ->
     step st line
     = bind (_add_list_to_doc (doc st) (current_list st))
         (fun d => Ok (mk_locals d [] (in_table st) (table_data st)))) /\
  (forall doc items,
     _add_list_to_doc doc items
     = if safe_texts items then Ok (doc ++ map bullet items) else Raise ValueError) /\
  (forall st line st', step st line = Ok st' -> in_table st = true ->
     (in_table st' = true /\
      (table_data st' = table_data st \/
       table_data st' = table_data st ++ [strip line])) \/
     (in_table st' = false /\ table_data st' = [] /\
      strip line <> [] /\ contains $"|" (strip line) = false)) /\
  (forall st, in_table st = true -> table_data st <> [] ->
     finish st
     = bind (_add_list_to_doc (doc st) (current_list st))
         (fun d => _add_table_to_doc d (table_data st))).
Proof.
  split; [|split; [exact add_list_to_doc_eq | split]].
  - intros st line H. unfold step. rewrite H. apply flush_list_eq.
  - intros st line st' Hs Hin.
    destruct (strip line) as [|c l] eqn:El.
    { rewrite step_blank in Hs by exact El.
      apply after_flush_Ok in Hs as (d & _ & ->). left. auto. }
    assert (Hne : strip line <> []) by (rewrite El; discriminate).
    rewrite <- El in *. clear El.
    destruct (startswith (strip line) $"#") eqn:Hh.
    { rewrite step_heading in Hs by assumption.
      apply after_flush_Ok in Hs as (d & _ & ->). left. auto. }
    destruct (contains $"|" (strip line)) eqn:Hp.
    { rewrite step_table_row in Hs by assumption. injection Hs as <-.
      left. cbn [in_table table_data]. rewrite Hin. auto. }
    rewrite step_table_close in Hs by assumption.
    destruct (flush_table st) as [d|e]; [|discriminate]. cbn [bind] in Hs.
    destruct (_add_paragraph d (strip line)) as [d'|e]; [|discriminate].
    cbn [bind] in Hs. injection Hs as <-. right. auto.
  - intros st Hin Hne. rewrite finish_eq, Hin.
    destruct (table_data st); [contradiction | reflexivity].
Qed.

Lemma blank_line_handling_witness :
  let st := mk_locals [] [ $"a"] true [ $"| x |"] in
  let st' := mk_locals [bullet $"a"] [] true [ $"| x |"] in
  step st $"  " = Ok st' /\
  ((in_table st' = true /\
    (table_data st' = table_data st \/
     table_data st' = table_data st ++ [strip $"  "])) \/
   (in_table st' = false /\ table_data st' = [] /\
    strip $"  " <> [] /\ contains $"|" (strip $"  ") = false)) /\
  finish st' = _add_table_to_doc [bullet $"a"] [ $"| x |"].
Proof.
  intros st st'. destruct blank_line_handling as (H1 & _ & H2 & H3).
  split; [|split].
  - apply (H1 st). reflexivity.
  - apply (H2 st $"  " st'); reflexivity.
  - apply (H3 st'); [reflexivity | discriminate].
Defined.

(** C3 (as the program has it) -- Block groups.  A blank line flushes and
    clears the open list buffer and leaves the table buffer as it is; a
    heading line, or a bold-inline or plain paragraph line, met while no
    table is open flushes and clears the list buffer before its block is
    added; a line with a pipe opens the table buffer or adds a row to it; a
    line that is not blank, not a heading and without a pipe, met while a
    table is open and no list is, flushes and clears the table buffer before
    the line is added as a paragraph; at the end of the input the list
    buffer and then the table buffer are flushed; and the table buffer holds
    rows only while the in-table flag is set.  (A flush adds one bulleted
    paragraph for each item, and fails when the document library refuses a
    text.) *)
Theorem block_group_flushes :
  (forall st line, strip line = [] -> step st line = after_flush st Ok) /\
  (forall st line, strip line <> [] -> startswith (strip line) $"#" = true ->
     in_table st = false ->
     step st line
     = after_flush st
         (fun d => _add_heading d (strip (lstrip_char hash (strip line)))
                     (length (first_word (strip line))))) /\
  (forall st line, strip line <> [] -> startswith (strip line) $"#" = false ->
     contains $"|" (strip line) = false -> in_table st = false ->
     is_item (strip line) = false ->
     step st line
     = after_flush st
         (fun d => (if contains $"**" (strip line)
                    then _add_formatted_paragraph else _add_paragraph)
                     d (strip line))) /\
  (forall st line st', strip line <> [] -> startswith (strip line) $"#" = false ->
     contains $"|" (strip line) = true -> step st line = Ok st' ->
     in_table st' = true /\
     table_data st' = (if in_table st then table_data st else []) ++ [strip line]) /\
  (forall st line st', strip line <> [] -> startswith (strip line) $"#" = false ->
     contains $"|" (strip line) = false -> in_table st = true ->
     current_list st = [] ->
     step st line = Ok st' ->
     in_table st' = false /\ table_data st' = [] /\
     exists d, flush_table st = Ok d /\
               _add_paragraph d (strip line) = Ok (doc st')) /\
  (forall st,
     finish st
     = bind (_add_list_to_doc (doc st) (current_list st))
         (fun d =>
            if in_table st && negb (match table_data st with [] => true | _ => false end)
            then _add_table_to_doc d (table_data st)
            else Ok d)) /\
  (forall doc items,
     _add_list_to_doc doc items
     = if safe_texts items then Ok (doc ++ map bullet items) else Raise ValueError) /\
  (forall lines st, run_lines init lines = Ok st ->
     in_table st = false -> table_data st = []).
Proof.
  split; [exact step_blank|].
  split; [intros st line Hne Hh _; now apply step_heading|].
  split; [exact step_paragraph|].
  split.
  { intros st line st' Hne Hh Hp Hs.
    rewrite step_table_row in Hs by assumption. injection Hs as <-. auto. }
  split; [|split; [exact finish_eq | split; [exact add_list_to_doc_eq|]]].
  2:{ intros lines st Hr. apply (run_lines_table_inv lines init); [|exact Hr].
      intros _. reflexivity. }
  intros st line st' Hne Hh Hp Hin _ Hs.
  rewrite step_table_close in Hs by assumption.
  destruct (flush_table st) as [d|e]; [|discriminate]. cbn [bind] in Hs.
  destruct (_add_paragraph d (strip line)) as [d'|e] eqn:Ep; [|discriminate].
  cbn [bind] in Hs. injection Hs as <-. eauto.
Qed.

Lemma block_group_flushes_witness :
  let st := mk_locals [] [ $"a"] false [] in
  let tb := mk_locals [] [] true [ $"| x |"] in
  let after := mk_locals [Table $"Light Shading Accent 1" [[[mk_run $"x" true false]]];
                          Paragraph None [plain $"text"]] [] false [] in
  step st $"" = Ok (mk_locals [bullet $"a"] [] false []) /\
  step st $"# T" = Ok (mk_locals [bullet $"a"; Heading 1 $"T"] [] false []) /\
  step st $"text"
  = Ok (mk_locals [bullet $"a"; Paragraph None [plain $"text"]] [] false []) /\
  (in_table tb = true /\ table_data tb = [] ++ [strip $"| x |"]) /\
  (in_table after = false /\ table_data after = [] /\
   exists d, flush_table tb = Ok d /\
             _add_paragraph d (strip $"text") = Ok (doc after)).
Proof.
  intros st tb after.
  destruct block_group_flushes as (H1 & H2 & H3 & H4 & H5 & _ & _ & _).
  split; [|split; [|split; [|split]]].
  - rewrite (H1 st) by reflexivity. reflexivity.
  - rewrite (H2 st $"# T") by (try discriminate; reflexivity). reflexivity.
  - rewrite (H3 st $"text") by (try discriminate; reflexivity). reflexivity.
  - apply (H4 init $"| x |" tb); [discriminate | reflexivity ..].
  - apply (H5 tb $"text" after); [discriminate | reflexivity ..].
Defined.

(** C3 as stated fails: after a table row and a blank line the table buffer
    is still open and nothing was added to the document; and after a list
    item and a table row the list buffer and the table buffer are both
    open. *)
Lemma block_groups_stay_open :
  run_lines init [ $"| x |"; $""] = Ok (mk_locals [] [] true [ $"| x |"]) /\
  run_lines init [ $"- a"; $"| x |"] = Ok (mk_locals [] [ $"a"] true [ $"| x |"]).
Proof. split; reflexivity. Qed.

(** * Further properties *)

(** ** The names of a template *)

Lemma matches_app {A : Type} (u v : list (ascii + A)) :
  Scan.matches (u ++ v) = Scan.matches u ++ Scan.matches v.
Proof.
  induction u as [|[c|a] u IH]; simpl; [reflexivity | exact IH | now rewrite IH].
Qed.

Lemma matches_inl {A : Type} (x : str) :
  Scan.matches (map (@inl ascii A) x) = [].
Proof. induction x as [|c x IH]; [reflexivity | exact IH]. Qed.

(** What the walk reports was matched somewhere in the subject. *)
Lemma scan_matches_In {A : Type} (m : str -> option (A * str)) (s : str) (a : A) :
  braced m -> In a (Scan.matches (Scan.scan m s)) ->
  exists p u r, s = p ++ u /\ m u = Some (a, r).
Proof.
  intros Hb. pose proof (braced_shrinks _ Hb) as Hm.
  remember (length s) as k eqn:Hk. revert s Hk.
  induction k as [k IH] using lt_wf_ind. intros [|c t] Hk Hin; [contradiction|].
  destruct (m (c :: t)) as [[b r]|] eqn:E.
  - rewrite (scan_match _ _ _ _ Hm E) in Hin.
    destruct (Hb _ _ _ E) as (x & _ & Hs & _). pose proof (Hm _ _ _ E) as Hr.
    destruct Hin as [<-|Hin].
    + exists [], (c :: t), r. auto.
    + destruct (IH (length r)) with (s := r) as (p & u & r' & -> & Hu);
        [lia | reflexivity | exact Hin |].
      exists (token x ++ p), u, r'. rewrite Hs, <- app_assoc. auto.
  - rewrite (scan_pass _ _ _ E) in Hin. cbn [Scan.matches] in Hin.
    destruct (IH (length t)) with (s := t) as (p & u & r & -> & Hu);
      [simpl in Hk; lia | reflexivity | exact Hin |].
    exists (c :: p), u, r. auto.
Qed.

(** A subject in which the pattern matches nowhere is passed over whole. *)
Lemma scan_no_match {A : Type} (m : str -> option (A * str)) (s : str) :
  (forall p u, s = p ++ u -> m u = None) -> Scan.scan m s = map inl s.
Proof.
  intros H. rewrite <- (app_nil_r s) at 1. rewrite scan_skip.
  - apply app_nil_r.
  - intros x1 x2 E _. rewrite app_nil_r. apply (H x1 x2 E).
Qed.

Lemma braced_head {A : Type} (m : str -> option (A * str)) (c : ascii) (s : str) :
  braced m -> c <> lbrace -> m (c :: s) = None.
Proof.
  intros Hb Hc. destruct (m (c :: s)) as [[a r]|] eqn:E; [exfalso|reflexivity].
  destruct (Hb _ _ _ E) as (x & _ & Hs & _). rewrite token_app in Hs.
  injection Hs as Hs _. contradiction.
Qed.

(** Without an opening brace there is nothing to match. *)
Lemma scan_no_lbrace {A : Type} (m : str -> option (A * str)) (s : str) :
  braced m -> ~ In lbrace s -> Scan.scan m s = map inl s.
Proof.
  intros Hb Hs. apply scan_no_match. intros p [|c u] E.
  - destruct (m []) as [[a r]|] eqn:Em; [exfalso|reflexivity].
    destruct (Hb _ _ _ Em) as (x & _ & Hx & _). rewrite token_app in Hx. discriminate.
  - apply braced_head; [exact Hb|]. intros ->. apply Hs. rewrite E.
    apply in_or_app. right. left. reflexivity.
Qed.

Lemma findall_placeholders_In (s w : str) :
  In w (findall_placeholders s) <-> word w = true /\ occurs (token w) s.
Proof.
  unfold findall_placeholders. split.
  - intros H. apply (scan_matches_In _ _ _ braced_placeholder) in H
      as (p & u & r & -> & Hm).
    apply match_placeholder_Some in Hm as [-> Hw].
    split; [exact Hw|]. exists p, r. reflexivity.
  - intros [Hw (pre & suf & ->)].
    rewrite (scan_token_taken _ _ _ _ w braced_placeholder)
      by (apply match_placeholder_Some; auto).
    rewrite matches_app. apply in_or_app. right. left. reflexivity.
Qed.

Lemma findall_after_sub (s : str) :
  findall_placeholders (sub_placeholders sentinel s) = [].
Proof.
  unfold findall_placeholders. rewrite scan_no_match.
  - apply matches_inl.
  - intros p u E. apply (sub_sentinel_clean s p u E).
Qed.

(** X1 -- [extract_placeholders] returns each name once, and the names it
    returns are exactly the words (one or more word characters) that stand
    between double braces somewhere in the template. *)
Theorem extract_placeholders_exact (self : processor) :
  NoDup (extract_placeholders self) /\
  (forall w, In w (extract_placeholders self)
             <-> word w = true /\ occurs (token w) (template self)).
Proof.
  unfold extract_placeholders. split; [apply NoDup_nodup|].
  intros w. rewrite nodup_In. apply findall_placeholders_In.
Qed.

(** X2 -- Once a template is filled, no placeholder is left to extract:
    taking the text [fill_template] returned as the template,
    [extract_placeholders] finds no name, whatever the data were. *)
Theorem extract_after_fill_empty (self : processor) (now : str) (data : dict value) :
  extract_placeholders
    (set_custom_template self (fst (fst (fill_template self now data)))) = [].
Proof.
  unfold extract_placeholders, set_custom_template, fill_template.
  cbn [fst template]. rewrite findall_after_sub. reflexivity.
Qed.

(** ** Substitution at one site *)

Lemma replace_no_lbrace (k new s : str) :
  no_brace k = true -> ~ In lbrace s -> replace (token k) new s = s.
Proof.
  intros Hk Hs. rewrite replace_token.
  rewrite (scan_no_lbrace _ _ (braced_at_prefix _ Hk) Hs). apply subst_inl.
Qed.

Lemma sub_placeholders_no_lbrace (repl s : str) :
  ~ In lbrace s -> sub_placeholders repl s = s.
Proof.
  intros Hs. unfold sub_placeholders.
  rewrite (scan_no_lbrace _ _ braced_placeholder Hs). apply subst_inl.
Qed.

Lemma fill_items_no_lbrace (items : dict value) (s : str) :
  plain_names (keys items) -> ~ In lbrace s -> fill_items s items = s.
Proof.
  intros Hks Hs. induction items as [|[k v] items IH]; [reflexivity|].
  inversion Hks as [|? ? Hk Hks']; subst. cbn [fill_items].
  rewrite replace_no_lbrace by assumption. apply IH, Hks'.
Qed.

Lemma replace_token_taken (k new pre suf : str) :
  no_brace k = true ->
  replace (token k) new (pre ++ token k ++ suf)
  = replace (token k) new pre ++ new ++ replace (token k) new suf.
Proof.
  intros Hk. rewrite !replace_token.
  rewrite (scan_token_taken _ _ _ _ tt (braced_at_prefix _ Hk)).
  - rewrite subst_app. reflexivity.
  - apply at_prefix_Some. reflexivity.
Qed.

Lemma not_in_app3 (c : ascii) (a b d : str) :
  ~ In c a -> ~ In c b -> ~ In c d -> ~ In c (a ++ b ++ d).
Proof.
  intros Ha Hb Hd H. apply in_app_or in H as [H|H]; [auto|].
  apply in_app_or in H as [H|H]; auto.
Qed.

Lemma fill_items_site (items : dict value) (pre k suf : str) (v : value) :
  ~ In lbrace pre -> ~ In lbrace suf -> no_brace k = true ->
  plain_names (keys items) -> dict_get k items = Some v ->
  ~ In lbrace (display v) ->
  fill_items (pre ++ token k ++ suf) items = pre ++ display v ++ suf.
Proof.
  intros Hpre Hsuf Hk Hks Hget Hv.
  induction items as [|[k1 v1] items IH]; [discriminate|].
  inversion Hks as [|? ? Hk1 Hks']; subst.
  cbn [dict_get] in Hget. cbn [fill_items].
  destruct (str_eqb k k1) eqn:E.
  - apply str_eqb_eq in E. subst k1. injection Hget as <-.
    rewrite replace_token_taken, !replace_no_lbrace by assumption.
    apply fill_items_no_lbrace; [exact Hks'|]. now apply not_in_app3.
  - assert (Hne : k1 <> k).
    { intros ->. rewrite (proj2 (str_eqb_eq k k) eq_refl) in E. discriminate. }
    rewrite replace_token_kept, !replace_no_lbrace by assumption.
    apply IH; assumption.
Qed.

Lemma plain_names_generation_date (now : str) (data : dict value) :
  plain_names (keys data) -> plain_names (keys (with_generation_date now data)).
Proof.
  intros H. destruct (with_generation_date_keys now data) as [-> | ->]; [exact H|].
  apply Forall_app. split; [exact H|]. repeat constructor.
Qed.

(** X3 -- Substitution at a site.  Let the template be a text without an
    opening brace, but for one placeholder [{{k}}]; let the keys of the data
    be names without braces, and let the value the data (with the generation
    date added) have for [k] display without an opening brace.  Then
    [fill_template] returns the template with the display string of the
    value in the place of the placeholder, and nothing else changed. *)
Theorem fill_template_site
  (self : processor) (now : str) (data : dict value) (pre k suf : str) (v : value) :
  template self = pre ++ token k ++ suf ->
  ~ In lbrace pre -> ~ In lbrace suf -> no_brace k = true ->
  plain_names (keys data) ->
  dict_get k (with_generation_date now data) = Some v ->
  ~ In lbrace (display v) ->
  fst (fst (fill_template self now data)) = pre ++ display v ++ suf.
Proof.
  intros Ht Hpre Hsuf Hk Hks Hget Hv. unfold fill_template. cbn [fst].
  rewrite Ht, (fill_items_site _ pre k suf v); try assumption.
  - apply sub_placeholders_no_lbrace. now apply not_in_app3.
  - apply plain_names_generation_date, Hks.
Qed.

Lemma fill_template_site_witness :
  fst (fst (fill_template (mk_processor $"Items:{{x}}." []) $"2024-01-01 10:00"
              [( $"x", VList [SStr $"a"; SInt 2; SNone])]))
  = $"Items:" ++ ( $"- a" ++ nl ++ $"- 2" ++ nl ++ $"- None") ++ $".".
Proof.
  apply (fill_template_site (mk_processor $"Items:{{x}}." []) $"2024-01-01 10:00"
           [( $"x", VList [SStr $"a"; SInt 2; SNone])]
           $"Items:" $"x" $"." (VList [SStr $"a"; SInt 2; SNone]));
    try reflexivity.
  - vm_compute. intuition discriminate.
  - vm_compute. intuition discriminate.
  - repeat constructor.
  - vm_compute. intuition discriminate.
Defined.

(** X4 -- A key that is missing.  Let the template be a text without an
    opening brace, but for one placeholder [{{k}}] with [k] a word, and let
    the keys of the data be names without braces other than [k], [k] not
    being [generation_date].  Then [fill_template] returns the template with
    the sentinel [[To be filled]] in the place of the placeholder. *)
Theorem fill_template_missing_key
  (self : processor) (now : str) (data : dict value) (pre k suf : str) :
  template self = pre ++ token k ++ suf ->
  ~ In lbrace pre -> ~ In lbrace suf -> word k = true ->
  k <> $"generation_date" ->
  names_other_than k (keys data) ->
  fst (fst (fill_template self now data)) = pre ++ sentinel ++ suf.
Proof.
  intros Ht Hpre Hsuf Hw Hg Hks. unfold fill_template. cbn [fst].
  assert (Hks' : names_other_than k (keys (with_generation_date now data))).
  { destruct (with_generation_date_keys now data) as [-> | ->]; [exact Hks|].
    apply Forall_app. split; [exact Hks|]. constructor; [|constructor].
    split; [reflexivity | congruence]. }
  assert (Hp : plain_names (keys (with_generation_date now data))).
  { eapply Forall_impl; [|exact Hks']. intros a [Ha _]. exact Ha. }
  rewrite Ht, (fill_items_kept _ _ _ _ (word_no_brace _ Hw) Hks').
  rewrite !fill_items_no_lbrace by assumption.
  rewrite sub_placeholders_token by exact Hw.
  rewrite !sub_placeholders_no_lbrace by assumption. reflexivity.
Qed.

Lemma fill_template_missing_key_witness :
  fst (fst (fill_template (mk_processor $"By {{who}}." []) $"2024-01-01 10:00"
              [( $"title", VScalar (SStr $"T"))]))
  = $"By " ++ sentinel ++ $".".
Proof.
  apply (fill_template_missing_key (mk_processor $"By {{who}}." [])
           $"2024-01-01 10:00" [( $"title", VScalar (SStr $"T"))]
           $"By " $"who" $"."); try reflexivity.
  - vm_compute. intuition discriminate.
  - vm_compute. intuition discriminate.
  - discriminate.
  - constructor; [|constructor]. split; [reflexivity | discriminate].
Defined.

(** X5 -- A template without an opening brace has nothing to fill: for
    data whose keys are names without braces [fill_template] returns it
    unchanged. *)
Theorem fill_template_without_braces
  (self : processor) (now : str) (data : dict value) :
  ~ In lbrace (template self) -> plain_names (keys data) ->
  fst (fst (fill_template self now data)) = template self.
Proof.
  intros Ht Hks. unfold fill_template. cbn [fst].
  rewrite fill_items_no_lbrace;
    [ | apply plain_names_generation_date, Hks | exact Ht].
  apply sub_placeholders_no_lbrace, Ht.
Qed.

Lemma fill_template_without_braces_witness :
  fst (fst (fill_template (mk_processor $"# Plain } text" []) $"2024-01-01 10:00"
              [( $"k", VScalar (SStr $"v"))]))
  = $"# Plain } text".
Proof.
  apply (fill_template_without_braces (mk_processor $"# Plain } text" [])
           $"2024-01-01 10:00" [( $"k", VScalar (SStr $"v"))]).
  - vm_compute. intuition discriminate.
  - repeat constructor.
Defined.

Lemma dict_mem_set {V : Type} (k : str) (v : V) (d : dict V) :
  dict_mem k (dict_set k v d) = true.
Proof.
  unfold dict_mem. induction d as [|[k' v'] d IH]; cbn [dict_set].
  - cbn [dict_get]. now rewrite (proj2 (str_eqb_eq k k) eq_refl).
  - destruct (str_eqb k k') eqn:E; cbn [dict_get]; rewrite E; [reflexivity | exact IH].
Qed.

Lemma with_generation_date_twice (now1 now2 : str) (data : dict value) :
  with_generation_date now2 (with_generation_date now1 data)
  = with_generation_date now1 data.
Proof.
  unfold with_generation_date at 1.
  assert (H : dict_mem $"generation_date" (with_generation_date now1 data) = true).
  { unfold with_generation_date.
    destruct (dict_mem $"generation_date" data) eqn:E; [exact E | apply dict_mem_set]. }
  rewrite H. reflexivity.
Qed.

(** X6 -- The date sticks.  A second call of [fill_template] with the
    mapping the first call left behind gives the text, the processor and
    the mapping of the first call again, whatever the time of the second
    call: the generation date of the first call is used. *)
Theorem fill_template_again
  (self : processor) (now1 now2 : str) (data : dict value) :
  let r := fill_template self now1 data in
  fill_template (snd (fst r)) now2 (snd r) = r.
Proof.
  unfold fill_template. cbn [fst snd template].
  rewrite with_generation_date_twice. reflexivity.
Qed.

(** ** The cells of a table *)

(** X7 -- The table [_add_table_to_doc] adds.  When no row of the cleaned
    data has more cells than the header and the document library takes the
    text of every cell (no control character other than the tab, the line
    feed and the carriage return), the call adds exactly one table (none
    when no row is left after the separator rows are discarded): it has one
    row for each row of the data and as many columns as the header has
    cells; each cell holds the text of its data cell as one run (a carriage
    return read back as a line break), bold in the header row and only
    there, and the cells a short row does not reach are empty.  The blocks
    already in the document are kept. *)
Theorem add_table_renders (doc : document) (table_data : list str) :
  Forall (fun row => length row <= length (hd [] (cleaned table_data)))
    (cleaned table_data) ->
  forallb safe_texts (cleaned table_data) = true ->
  _add_table_to_doc doc table_data
  = Ok (match cleaned table_data with
        | [] => doc
        | header :: rest =>
            doc ++ [Table $"Light Shading Accent 1"
                      (render_row true (length header) header
                       :: map (render_row false (length header)) rest)]
        end).
Proof.
  unfold _add_table_to_doc.
  destruct (cleaned table_data) as [|header rest]; [reflexivity|].
  cbn [hd]. intros H Hs. apply add_table_rendered; assumption.
Qed.

Lemma add_table_renders_witness :
  _add_table_to_doc [] [ $"| H1 | H2 |"; $"|---|---|"; $"| a |"]
  = Ok [Table $"Light Shading Accent 1"
          [[[mk_run $"H1" true false]; [mk_run $"H2" true false]];
           [[mk_run $"a" false false]; []]]].
Proof.
  apply (add_table_renders [] [ $"| H1 | H2 |"; $"|---|---|"; $"| a |"]).
  - repeat constructor.
  - reflexivity.
Defined.

(** ** Splitting on a character *)

Lemma split_on_not_nil (c : ascii) (s : str) : split_on c s <> [].
Proof.
  destruct s as [|a s]; cbn [split_on]; [discriminate|].
  destruct (eqc c a); [discriminate|].
  destruct (split_on c s); discriminate.
Qed.

Lemma split_on_nosep (c : ascii) (b : str) :
  ~ In c b -> split_on c b = [b].
Proof.
  induction b as [|a b IH]; intros H; cbn [split_on]; [reflexivity|].
  destruct (eqc c a) eqn:E.
  - apply eqc_eq in E. subst a. exfalso. apply H. now left.
  - rewrite IH; [reflexivity|]. intros Hin. apply H. now right.
Qed.

Lemma split_on_app_sep (c : ascii) (a rest : str) :
  ~ In c a -> split_on c (a ++ c :: rest) = a :: split_on c rest.
Proof.
  induction a as [|x a IH]; intros H; cbn [app split_on].
  - now rewrite eqc_refl.
  - destruct (eqc c x) eqn:E.
    + apply eqc_eq in E. subst x. exfalso. apply H. now left.
    + rewrite IH; [reflexivity|]. intros Hin. apply H. now right.
Qed.

Lemma removelast_cons {A : Type} (x : A) (l : list A) :
  l <> [] -> removelast (x :: l) = x :: removelast l.
Proof. destruct l; [contradiction | reflexivity]. Qed.

Lemma removelast_split_on (c : ascii) (s b : str) :
  ~ In c b -> removelast (split_on c (s ++ c :: b)) = split_on c s.
Proof.
  intros Hb. induction s as [|x s IH]; cbn [app split_on].
  - rewrite eqc_refl, split_on_nosep by exact Hb. reflexivity.
  - destruct (eqc c x).
    + rewrite removelast_cons by apply split_on_not_nil. now rewrite IH.
    + destruct (split_on c (s ++ c :: b)) as [|p ps] eqn:E.
      { now apply split_on_not_nil in E. }
      destruct ps as [|q ps].
      { cbn [removelast] in IH. symmetry in IH. now apply split_on_not_nil in IH. }
      rewrite removelast_cons in IH by discriminate.
      rewrite removelast_cons by discriminate. rewrite <- IH. reflexivity.
Qed.

Lemma split_on_join (c : ascii) (lines : list str) :
  lines <> [] -> Forall (fun l => ~ In c l) lines ->
  split_on c (join [c] lines) = lines.
Proof.
  induction lines as [|x lines IH]; intros Hne H; [contradiction|].
  inversion H as [|? ? Hx Hl]; subst.
  destruct lines as [|y lines].
  - cbn [join]. apply split_on_nosep, Hx.
  - change (join [c] (x :: y :: lines)) with (x ++ c :: join [c] (y :: lines)).
    rewrite split_on_app_sep by exact Hx.
    rewrite IH; [reflexivity | discriminate | exact Hl].
Qed.

Lemma split_on_chars (c x : ascii) (s l : str) :
  In l (split_on c s) -> In x l -> In x s.
Proof.
  revert l. induction s as [|a s IH]; intros l; cbn [split_on].
  - intros [<-|[]] [].
  - destruct (eqc c a).
    + intros [<-|Hl] Hx; [contradiction|]. right. eapply IH; eassumption.
    + destruct (split_on c s) as [|p ps] eqn:E.
      * intros [<-|[]] [<-|[]]. now left.
      * intros [<-|Hl] Hx.
        -- destruct Hx as [<-|Hx]; [now left|]. right. apply (IH p); [now left | exact Hx].
        -- right. apply (IH l); [now right | exact Hx].
Qed.

(** X8 -- The cells of a table row are the pieces between its first and
    its last pipe, split on the pipes in between and trimmed; what stands
    before the first pipe and after the last one is dropped, so a row with a
    single pipe has no cell at all. *)
Theorem row_cells_between (a mid b : str) :
  ~ In pipe a -> ~ In pipe b ->
  row_cells (a ++ pipe :: mid ++ pipe :: b) = map strip (split_on pipe mid) /\
  row_cells (a ++ pipe :: b) = [].
Proof.
  intros Ha Hb. unfold row_cells, inner. split.
  - rewrite split_on_app_sep by exact Ha. cbn [tl].
    rewrite removelast_split_on by exact Hb. reflexivity.
  - rewrite split_on_app_sep, split_on_nosep by assumption. reflexivity.
Qed.

Lemma row_cells_between_witness :
  row_cells ( $"Name" ++ pipe :: $" Role | Contact " ++ pipe :: $"Duty")
  = map strip (split_on pipe $" Role | Contact ") /\
  row_cells ( $"either" ++ pipe :: $"or") = [].
Proof.
  apply (row_cells_between $"Name" $" Role | Contact " $"Duty");
    vm_compute; intuition discriminate.
Defined.

(** ** What the walk over the lines adds *)

Lemma first_word_heading (l : str) :
  startswith l $"#" = true -> 1 <= length (first_word l).
Proof.
  intros H. apply startswith_true in H as [r ->].
  change (first_word ( $"#" ++ r))
    with (hash :: takewhile (fun c => negb (is_space c)) r).
  cbn [length]. lia.
Qed.

Lemma fair_paragraph (open : bool) (style : option str) (runs : list run) :
  fair open (Paragraph style runs).
Proof. split; [exact I | left; exact I]. Qed.

Lemma fair_bullets (open : bool) (items : list str) :
  Forall (fair open) (map bullet items).
Proof.
  apply Forall_forall. intros b Hb. apply in_map_iff in Hb as (item & <- & _).
  apply fair_paragraph.
Qed.

Lemma heading_block_fair (open : bool) (text : str) (level : nat) :
  1 <= level -> fair open (heading_block text level).
Proof.
  intros H. unfold heading_block. destruct (level <=? 3) eqn:E.
  - apply Nat.leb_le in E. split; [cbn; lia | left; exact I].
  - apply fair_paragraph.
Qed.

Lemma paragraph_blocks_fair (open : bool) (text : str) :
  Forall (fair open) (paragraph_blocks text).
Proof.
  unfold paragraph_blocks. destruct text; [constructor|].
  constructor; [apply fair_paragraph | constructor].
Qed.

Lemma add_paragraph_Ok (doc d : document) (text : str) :
  _add_paragraph doc text = Ok d -> d = doc ++ paragraph_blocks text.
Proof.
  rewrite add_paragraph_blocks. destruct (xml_text text); [|discriminate].
  now intros [= <-].
Qed.

Lemma add_formatted_Ok (doc d : document) (text : str) :
  _add_formatted_paragraph doc text = Ok d ->
  exists runs, d = doc ++ [Paragraph None runs].
Proof.
  unfold _add_formatted_paragraph.
  destruct (map_result run_of_part (split_bold text)) as [runs|e]; [|discriminate].
  cbn [bind]. intros [= <-]. eauto.
Qed.

Lemma add_table_fair (doc doc' : document) (table_data : list str) :
  _add_table_to_doc doc table_data = Ok doc' ->
  exists added, doc' = doc ++ added /\ Forall (fair true) added.
Proof.
  unfold _add_table_to_doc. destruct (cleaned table_data) as [|h rest].
  - intros [= <-]. exists []. rewrite app_nil_r. auto.
  - destruct (fill_rows 0 _ _) as [t|e]; [|discriminate].
    cbn [bind]. intros [= <-]. eexists [_]. split; [reflexivity|].
    constructor; [|constructor]. split; [exact I | now right].
Qed.

Lemma flush_table_fair (st : locals) (d : document) :
  flush_table st = Ok d ->
  exists added, d = doc st ++ added /\ Forall (fair true) added.
Proof.
  unfold flush_table. destruct (table_data st) as [|r rs].
  - intros [= <-]. exists []. rewrite app_nil_r. auto.
  - apply add_table_fair.
Qed.

(** One line leaves the blocks of the document in place and adds fair
    blocks behind them. *)
Lemma step_adds (st st' : locals) (line : str) :
  step st line = Ok st' ->
  exists added, doc st' = doc st ++ added /\ Forall (fair (in_table st)) added.
Proof.
  intros Hs. destruct (strip line) as [|c l] eqn:El.
  { rewrite step_blank in Hs by exact El.
    apply after_flush_Ok in Hs as (d & [= <-] & ->).
    eexists. split; [reflexivity | apply fair_bullets]. }
  assert (Hne : strip line <> []) by (rewrite El; discriminate).
  clear El c l.
  destruct (startswith (strip line) $"#") eqn:Hh.
  { rewrite step_heading in Hs by assumption.
    apply after_flush_Ok in Hs as (d & Hk & ->). cbn [doc].
    apply add_heading_Ok in Hk as ->.
    eexists. rewrite <- app_assoc. split; [reflexivity|].
    apply Forall_app. split; [apply fair_bullets|].
    constructor; [|constructor].
    apply heading_block_fair, first_word_heading, Hh. }
  destruct (contains $"|" (strip line)) eqn:Hp.
  { rewrite step_table_row in Hs by assumption. injection Hs as <-.
    exists []. cbn [doc]. rewrite app_nil_r. auto. }
  destruct (in_table st) eqn:Hin.
  { rewrite step_table_close in Hs by assumption.
    destruct (flush_table st) as [d|e] eqn:Hf; [|discriminate].
    cbn [bind] in Hs.
    destruct (_add_paragraph d (strip line)) as [d'|e] eqn:Ep; [|discriminate].
    cbn [bind] in Hs. injection Hs as <-. cbn [doc].
    apply flush_table_fair in Hf as (a1 & -> & H1).
    apply add_paragraph_Ok in Ep as ->.
    exists (a1 ++ paragraph_blocks (strip line)). rewrite app_assoc.
    split; [reflexivity|].
    apply Forall_app. split; [exact H1 | apply paragraph_blocks_fair]. }
  destruct (is_item (strip line)) eqn:Hi.
  - destruct (step_item st line Hne Hh Hp Hin Hi) as [item Hitem].
    rewrite Hitem in Hs. injection Hs as <-.
    exists []. cbn [doc]. rewrite app_nil_r. auto.
  - rewrite step_paragraph in Hs by assumption.
    apply after_flush_Ok in Hs as (d & Hk & ->). cbn [doc].
    destruct (contains $"**" (strip line)).
    + apply add_formatted_Ok in Hk as (runs & ->). rewrite <- app_assoc.
      eexists. split; [reflexivity|].
      apply Forall_app. split; [apply fair_bullets|].
      constructor; [apply fair_paragraph | constructor].
    + apply add_paragraph_Ok in Hk as ->. rewrite <- app_assoc.
      eexists. split; [reflexivity|].
      apply Forall_app. split; [apply fair_bullets | apply paragraph_blocks_fair].
Qed.

Lemma fair_weaken (open : bool) (l : list block) :
  Forall (fair open) l -> Forall heading_ok l.
Proof. apply Forall_impl. intros b [H _]. exact H. Qed.

Lemma run_lines_adds (lines : list str) (st st' : locals) :
  run_lines st lines = Ok st' ->
  exists added, doc st' = doc st ++ added /\ Forall heading_ok added.
Proof.
  revert st. induction lines as [|line lines IH]; intros st; cbn [run_lines].
  - intros [= <-]. exists []. rewrite app_nil_r. auto.
  - destruct (step st line) as [st1|e] eqn:Hs; [|discriminate]. cbn [bind].
    intros Hr. apply step_adds in Hs as (a1 & E1 & H1).
    apply IH in Hr as (a2 & E2 & H2). exists (a1 ++ a2).
    rewrite E2, E1, app_assoc. split; [reflexivity|].
    apply Forall_app. split; [eapply fair_weaken, H1 | exact H2].
Qed.

Lemma finish_adds (st : locals) (d : document) :
  finish st = Ok d ->
  exists added, d = doc st ++ added /\ Forall heading_ok added.
Proof.
  rewrite finish_eq, add_list_to_doc_eq.
  destruct (safe_texts (current_list st)); [|discriminate]. cbn [bind].
  destruct (in_table st && _).
  - intros H. apply add_table_fair in H as (a & -> & Ha).
    exists (map bullet (current_list st) ++ a). rewrite app_assoc.
    split; [reflexivity|]. apply Forall_app.
    split; [eapply fair_weaken, (fair_bullets true) | eapply fair_weaken, Ha].
  - intros [= <-]. eexists. split; [reflexivity|].
    eapply fair_weaken, (fair_bullets true).
Qed.

(** X9 -- The document only grows at its end.  Whatever lines are walked
    over, the blocks the document had before are still there, in their
    order and unchanged, in front of the blocks that were added; the same
    holds for the flushes at the end of the input. *)
Theorem document_append_only (st : locals) (lines : list str) :
  (forall st', run_lines st lines = Ok st' ->
     exists added, doc st' = doc st ++ added) /\
  (forall d, finish st = Ok d -> exists added, d = doc st ++ added).
Proof.
  split.
  - intros st' H. apply run_lines_adds in H as (a & E & _). eauto.
  - intros d H. apply finish_adds in H as (a & E & _). eauto.
Qed.

Lemma document_append_only_witness :
  let st := mk_locals [Heading 1 $"T"] [ $"a"] false [] in
  exists added,
    doc (mk_locals [Heading 1 $"T"; bullet $"a"; Paragraph None [plain $"text"]]
           [] false [])
    = doc st ++ added.
Proof.
  intros st.
  apply (proj1 (document_append_only st [ $""; $"text"])). reflexivity.
Defined.

(** X10 -- Every native heading of a converted document has a level from 1
    to 3: a heading line is never given level 0 (the title style of the
    document library), and deeper levels become paragraphs. *)
Theorem headings_have_level_1_to_3
  (self : processor) (markdown_content : option str) (d : document) :
  markdown_to_docx self markdown_content = Ok d -> Forall heading_ok d.
Proof.
  unfold markdown_to_docx.
  destruct (run_lines init _) as [st|e] eqn:Hr; [|discriminate]. cbn [bind].
  intros Hf. apply run_lines_adds in Hr as (a1 & E1 & H1).
  apply finish_adds in Hf as (a2 & -> & H2). rewrite E1. cbn [init doc app].
  apply Forall_app. auto.
Qed.

Lemma headings_have_level_1_to_3_witness :
  Forall heading_ok
    [Heading 2 $"A"; Paragraph (Some $"Heading 3") [plain $"Deep"]].
Proof.
  apply (headings_have_level_1_to_3 new (Some ( $"## A" ++ nl ++ $"#### Deep"))).
  reflexivity.
Defined.

(** ** Lines of one kind *)

Lemma dropwhile_repeat (c : ascii) (n : nat) (rest : str) :
  stops (eqc c) rest -> dropwhile (eqc c) (repeat c n ++ rest) = rest.
Proof.
  intros Hr. induction n as [|n IH]; cbn [repeat app dropwhile].
  - destruct rest as [|a r]; [reflexivity|]. cbn [dropwhile stops] in *.
    now rewrite Hr.
  - now rewrite eqc_refl.
Qed.

Lemma space_stops_hash (rest : str) :
  stops (fun c => negb (is_space c)) rest -> stops (eqc hash) rest.
Proof.
  destruct rest as [|a r]; [trivial|]. cbn [stops]. intros H.
  apply negb_false_iff in H. apply eqc_neq. intros <-. discriminate H.
Qed.

Lemma add_heading_safe (doc : document) (text : str) (level : nat) :
  xml_text text = true ->
  _add_heading doc text level = Ok (doc ++ [heading_block text level]).
Proof.
  intros H. unfold _add_heading, heading_block. destruct (level <=? 3) eqn:E.
  - unfold add_heading. apply Nat.leb_le in E.
    assert (E9 : (level <=? 9) = true) by (apply Nat.leb_le; lia).
    rewrite E9, text_run_safe by exact H. reflexivity.
  - rewrite add_paragraph_eq, H. reflexivity.
Qed.

(** X11 -- A heading with its [#] characters set off.  When the stripped
    line is [n] characters [#] ([n] at least 1) followed by nothing or by
    white space and a text, and the document library takes the texts of the
    open list and the text of the heading, the open list is flushed and the
    heading is added with level [n] and the text stripped: a native heading
    for [n] up to 3, a paragraph in the style of a level-3 heading for a
    larger [n]. *)
Theorem heading_line_spaced (st : locals) (line : str) (n : nat) (rest : str) :
  strip line = repeat hash (S n) ++ rest ->
  stops (fun c => negb (is_space c)) rest ->
  safe_texts (current_list st) = true ->
  xml_text (strip rest) = true ->
  step st line
  = Ok (mk_locals
          (doc st ++ map bullet (current_list st)
           ++ [if S n <=? 3 then Heading (S n) (stored (strip rest))
               else Paragraph (Some $"Heading 3")
                      (match strip rest with
                       | [] => []
                       | _ :: _ => [plain (stored (strip rest))]
                       end)])
          [] (in_table st) (table_data st)).
Proof.
  intros El Hr Hl Hx. rewrite step_heading.
  - rewrite El. destruct (heading_level_spaced n rest Hr) as [-> _].
    unfold lstrip_char. rewrite dropwhile_repeat by apply space_stops_hash, Hr.
    rewrite after_flush_safe by exact Hl.
    rewrite add_heading_safe by exact Hx. cbn [bind].
    rewrite <- app_assoc. reflexivity.
  - rewrite El. discriminate.
  - rewrite El. reflexivity.
Qed.

Lemma heading_line_spaced_witness :
  step (mk_locals [] [ $"a"] false []) $"  ## Scope and aims  "
  = Ok (mk_locals [bullet $"a"; Heading 2 $"Scope and aims"] [] false []).
Proof.
  apply (heading_line_spaced (mk_locals [] [ $"a"] false []) $"  ## Scope and aims  "
           1 $" Scope and aims"); reflexivity.
Defined.

Lemma contains_char_In (c : ascii) (s : str) :
  contains [c] s = true -> In c s.
Proof.
  induction s as [|a s IH]; cbn [contains]; [discriminate|].
  intros H. apply orb_true_iff in H as [H|H].
  - apply startswith_true in H as [r E]. injection E as -> _. now left.
  - right. apply IH, H.
Qed.

Lemma contains_char_false (c : ascii) (s : str) :
  ~ In c s -> contains [c] s = false.
Proof.
  intros H. destruct (contains [c] s) eqn:E; [|reflexivity].
  apply contains_char_In in E. contradiction.
Qed.

Lemma dropwhile_In (f : ascii -> bool) (x : ascii) (s : str) :
  In x (dropwhile f s) -> In x s.
Proof.
  induction s as [|a s IH]; cbn [dropwhile]; [trivial|].
  destruct (f a); [intros H; right; apply IH, H | trivial].
Qed.

Lemma strip_In (x : ascii) (s : str) : In x (strip s) -> In x s.
Proof.
  unfold strip, rstrip, lstrip. intros H.
  apply in_rev, dropwhile_In, in_rev, dropwhile_In in H. exact H.
Qed.

Lemma strip_no_pipe (line : str) :
  ~ In pipe line -> contains $"|" (strip line) = false.
Proof.
  intros H. apply (contains_char_false pipe). intros Hin. apply H, strip_In, Hin.
Qed.

Lemma xml_text_sub (s t : str) :
  (forall c, In c t -> In c s) -> xml_text s = true -> xml_text t = true.
Proof.
  unfold xml_text. intros H Hs. apply forallb_forall. intros c Hc.
  rewrite forallb_forall in Hs. apply Hs, H, Hc.
Qed.

Lemma skipn_In {A : Type} (n : nat) (x : A) (l : list A) :
  In x (skipn n l) -> In x l.
Proof.
  intros H. rewrite <- (firstn_skipn n l). apply in_or_app. now right.
Qed.

Lemma firstn_In {A : Type} (n : nat) (x : A) (l : list A) :
  In x (firstn n l) -> In x l.
Proof.
  intros H. rewrite <- (firstn_skipn n l). apply in_or_app. now left.
Qed.

Lemma slice_In (a b : nat) (x : ascii) (s : str) : In x (slice a b s) -> In x s.
Proof. unfold slice. intros H. eapply skipn_In, firstn_In, H. Qed.

Lemma sub_numbered_In (x : ascii) (s : str) : In x (sub_numbered s) -> In x s.
Proof.
  unfold sub_numbered. destruct (span is_digit s) as [d r] eqn:E.
  apply span_spec in E as (-> & _ & _).
  destruct d as [|c d]; [trivial|].
  destruct (strip_prefix [dot] r) as [t|] eqn:Er; [|trivial].
  apply strip_prefix_Some in Er. subst r. intros H. apply dropwhile_In in H.
  apply in_or_app. right. apply in_or_app. now right.
Qed.

Lemma split_bold_In (x : ascii) (part text : str) :
  In part (split_bold text) -> In x part -> In x text.
Proof.
  intros Hp Hx.
  rewrite <- (pieces_concat match_bold (fun d : str => d) shrinks_bold
                (fun s a r H => proj1 (match_bold_spec s a r H)) text).
  apply in_concat. exists part. split; [exact Hp | exact Hx].
Qed.

Lemma run_of_part_cases (part : str) :
  exists t bold italic,
    run_of_part part = text_run t bold italic /\ forall c, In c t -> In c part.
Proof.
  unfold run_of_part.
  destruct (startswith part $"**" && endswith part $"**").
  { do 3 eexists. split; [reflexivity | intros c; apply slice_In]. }
  destruct (startswith part $"*" && endswith part $"*" && negb (startswith part $"**")).
  { do 3 eexists. split; [reflexivity | intros c; apply slice_In]. }
  do 3 eexists. split; [reflexivity | trivial].
Qed.

Lemma text_run_value_error (t : str) (bold italic : bool) (e : exn) :
  text_run t bold italic = Raise e -> e = ValueError.
Proof. unfold text_run. destruct (xml_text t); [discriminate | now intros [= <-]]. Qed.

Lemma map_run_value_error (parts : list str) (e : exn) :
  map_result run_of_part parts = Raise e -> e = ValueError.
Proof.
  induction parts as [|p parts IH]; cbn [map_result]; [discriminate|].
  destruct (run_of_part_cases p) as (t & b & i & -> & _).
  destruct (text_run t b i) as [r|e'] eqn:E; cbn [bind].
  - destruct (map_result run_of_part parts) as [rs|e'']; cbn [bind]; [discriminate|].
    intros [= <-]. now apply IH.
  - intros [= <-]. eapply text_run_value_error, E.
Qed.

Lemma map_run_safe (parts : list str) :
  Forall (fun p => xml_text p = true) parts ->
  exists runs, map_result run_of_part parts = Ok runs.
Proof.
  induction 1 as [|p parts Hp _ IH]; cbn [map_result]; [eauto|].
  destruct (run_of_part_cases p) as (t & b & i & -> & Ht).
  rewrite text_run_safe by (eapply xml_text_sub; eassumption).
  destruct IH as [runs ->]. cbn [bind]. eauto.
Qed.

Lemma add_formatted_value_error (doc : document) (text : str) (e : exn) :
  _add_formatted_paragraph doc text = Raise e -> e = ValueError.
Proof.
  unfold _add_formatted_paragraph.
  destruct (map_result run_of_part (split_bold text)) as [runs|e'] eqn:E;
    cbn [bind]; [discriminate|].
  intros [= <-]. eapply map_run_value_error, E.
Qed.

Lemma add_formatted_safe (doc : document) (text : str) :
  xml_text text = true ->
  exists runs, _add_formatted_paragraph doc text = Ok (doc ++ [Paragraph None runs]).
Proof.
  intros H. unfold _add_formatted_paragraph.
  destruct (map_run_safe (split_bold text)) as [runs ->]; [|cbn [bind]; eauto].
  apply Forall_forall. intros p Hp. apply (xml_text_sub text); [|exact H].
  intros c. apply split_bold_In, Hp.
Qed.

Lemma add_paragraph_value_error (doc : document) (text : str) (e : exn) :
  _add_paragraph doc text = Raise e -> e = ValueError.
Proof.
  rewrite add_paragraph_blocks. destruct (xml_text text); [discriminate|].
  now intros [= <-].
Qed.

(** What a flush followed by an addition that fails with a value error
    only leaves of the table flag. *)
Lemma after_flush_outside (st : locals) (k : document -> result document) :
  in_table st = false ->
  (forall d e, k d = Raise e -> e = ValueError) ->
  match after_flush st k with
  | Ok st' => in_table st' = false
  | Raise e => e = ValueError
  end.
Proof.
  intros Hin Hk. unfold after_flush. rewrite add_list_to_doc_eq.
  destruct (safe_texts (current_list st)); cbn [bind]; [|reflexivity].
  destruct (k _) as [d|e] eqn:E; cbn [bind]; [exact Hin | eapply Hk, E].
Qed.

(** Outside a table a line without a pipe opens no table, and fails with
    the value error of the document library only. *)
Lemma step_outside_table (st : locals) (line : str) :
  in_table st = false -> contains $"|" (strip line) = false ->
  match step st line with
  | Ok st' => in_table st' = false
  | Raise e => e = ValueError
  end.
Proof.
  intros Hin Hp. destruct (strip line) as [|c l] eqn:El.
  { rewrite step_blank by exact El. apply after_flush_outside; [exact Hin|].
    discriminate. }
  assert (Hne : strip line <> []) by (rewrite El; discriminate).
  rewrite <- El in *. clear El c l.
  destruct (startswith (strip line) $"#") eqn:Hh.
  { rewrite step_heading by assumption. apply after_flush_outside; [exact Hin|].
    intros d e. apply add_heading_value_error. }
  destruct (is_item (strip line)) eqn:Hi.
  - destruct (step_item st line Hne Hh Hp Hin Hi) as [item ->]. reflexivity.
  - rewrite step_paragraph by assumption. apply after_flush_outside; [exact Hin|].
    intros d e. destruct (contains $"**" (strip line)).
    + apply add_formatted_value_error.
    + apply add_paragraph_value_error.
Qed.

Lemma safe_texts_app (l : list str) (item : str) :
  safe_texts l = true -> xml_text item = true -> safe_texts (l ++ [item]) = true.
Proof.
  intros Hl Hi. unfold safe_texts. rewrite forallb_app. cbn [forallb].
  unfold safe_texts in Hl. now rewrite Hl, Hi.
Qed.

(** Outside a table a line without a pipe is taken when the document
    library takes its text and the texts of the open list. *)
Lemma step_outside_safe (st : locals) (line : str) :
  in_table st = false -> contains $"|" (strip line) = false ->
  safe_texts (current_list st) = true -> xml_text line = true ->
  exists st', step st line = Ok st' /\ safe_texts (current_list st') = true.
Proof.
  intros Hin Hp Hl Hx.
  assert (Hs : xml_text (strip line) = true)
    by (apply (xml_text_sub line); [intros c; apply strip_In | exact Hx]).
  destruct (strip line) as [|c l] eqn:El.
  { rewrite step_blank by exact El. rewrite after_flush_safe by exact Hl.
    cbn [bind]. eauto. }
  assert (Hne : strip line <> []) by (rewrite El; discriminate).
  rewrite <- El in *. clear El c l.
  destruct (startswith (strip line) $"#") eqn:Hh.
  { rewrite step_heading by assumption. rewrite after_flush_safe by exact Hl.
    rewrite add_heading_safe; [cbn [bind]; eauto|].
    apply (xml_text_sub (strip line)); [|exact Hs].
    intros c H. apply strip_In in H. eapply dropwhile_In, H. }
  destruct (is_item (strip line)) eqn:Hi.
  - unfold step. destruct (strip line) as [|c l] eqn:El; [contradiction|].
    rewrite <- El in *. rewrite Hh, Hp, Hin. cbn [andb]. unfold is_item in Hi.
    destruct (startswith (strip line) $"- " || startswith (strip line) $"* "
              || startswith (strip line) $"+ ").
    + eexists. split; [reflexivity|]. cbn [current_list].
      apply safe_texts_app; [exact Hl|].
      apply (xml_text_sub (strip line)); [intros a; apply skipn_In | exact Hs].
    + cbn [orb] in Hi. rewrite Hi.
      eexists. split; [reflexivity|]. cbn [current_list].
      apply safe_texts_app; [exact Hl|].
      apply (xml_text_sub (strip line)); [intros a; apply sub_numbered_In | exact Hs].
  - rewrite step_paragraph by assumption. rewrite after_flush_safe by exact Hl.
    destruct (contains $"**" (strip line)).
    + destruct (add_formatted_safe (doc st ++ map bullet (current_list st))
                  (strip line) Hs) as [runs ->].
      cbn [bind]. eauto.
    + rewrite add_paragraph_blocks, Hs. cbn [bind]. eauto.
Qed.

Lemma run_lines_outside_table (lines : list str) (st : locals) :
  in_table st = false ->
  Forall (fun line => ~ In pipe line) lines ->
  match run_lines st lines with
  | Ok st' =>
      in_table st' = false /\
      exists added, doc st' = doc st ++ added /\ Forall no_table added
  | Raise e => e = ValueError
  end.
Proof.
  revert st. induction lines as [|line lines IH]; intros st Hin Hl; cbn [run_lines].
  - split; [exact Hin|]. exists []. rewrite app_nil_r. auto.
  - inversion Hl as [|? ? H1 H2]; subst.
    pose proof (step_outside_table st line Hin (strip_no_pipe _ H1)) as Hs.
    destruct (step st line) as [st1|e] eqn:Es; cbn [bind]; [|exact Hs].
    specialize (IH st1 Hs H2).
    destruct (run_lines st1 lines) as [st'|e]; [|exact IH].
    destruct IH as (Hin' & a2 & E2 & Hn2). split; [exact Hin'|].
    apply step_adds in Es as (a1 & E1 & Hf1). exists (a1 ++ a2).
    rewrite E2, E1, app_assoc. split; [reflexivity|].
    apply Forall_app. split; [|exact Hn2].
    eapply Forall_impl; [|exact Hf1]. intros b [_ [Hb|Hb]]; [exact Hb | congruence].
Qed.

Lemma run_lines_outside_safe (lines : list str) (st : locals) :
  in_table st = false ->
  Forall (fun line => ~ In pipe line) lines ->
  safe_texts (current_list st) = true ->
  Forall (fun line => xml_text line = true) lines ->
  exists st', run_lines st lines = Ok st' /\ safe_texts (current_list st') = true.
Proof.
  revert st. induction lines as [|line lines IH]; intros st Hin Hl Hs Hx;
    cbn [run_lines]; [eauto|].
  inversion Hl as [|? ? H1 H2]; subst. inversion Hx as [|? ? H3 H4]; subst.
  pose proof (step_outside_table st line Hin (strip_no_pipe _ H1)) as Ho.
  destruct (step_outside_safe st line Hin (strip_no_pipe _ H1) Hs H3)
    as (st1 & Es & Hs1).
  rewrite Es in *. cbn [bind]. apply IH; assumption.
Qed.

Lemma bullets_no_table (items : list str) : Forall no_table (map bullet items).
Proof.
  apply Forall_forall. intros b Hb. apply in_map_iff in Hb as (item & <- & _).
  exact I.
Qed.

(** X12 -- Without a pipe no table and no out-of-bounds failure.  The
    conversion of a text that has no pipe character never fails with the
    out-of-bounds failure (that one can only come from a table); a document
    it returns has no table; and it does return a document when the text
    has no character the document library refuses (no control character
    other than the tab, the line feed and the carriage return). *)
Theorem no_pipe_no_failure (self : processor) (content : str) :
  ~ In pipe content ->
  markdown_to_docx self (Some content) <> Raise IndexError /\
  (forall d, markdown_to_docx self (Some content) = Ok d -> Forall no_table d) /\
  (xml_text content = true -> exists d, markdown_to_docx self (Some content) = Ok d).
Proof.
  intros H. unfold markdown_to_docx.
  assert (Hl : Forall (fun line => ~ In pipe line) (split_on newline content)).
  { apply Forall_forall. intros l Hl Hp. apply H.
    eapply split_on_chars; eassumption. }
  pose proof (run_lines_outside_table (split_on newline content) init eq_refl Hl) as Hr.
  split; [|split].
  - destruct (run_lines init _) as [st|e]; cbn [bind].
    + destruct Hr as (Hin & _). rewrite finish_eq, Hin, add_list_to_doc_eq.
      destruct (safe_texts (current_list st)); discriminate.
    + subst e. discriminate.
  - intros d. destruct (run_lines init _) as [st|e]; cbn [bind]; [|discriminate].
    destruct Hr as (Hin & a & E & Ha). rewrite finish_eq, Hin, add_list_to_doc_eq.
    destruct (safe_texts (current_list st)); cbn [bind andb]; [|discriminate].
    intros [= <-]. rewrite E. cbn [init doc app].
    apply Forall_app. split; [exact Ha | apply bullets_no_table].
  - intros Hx.
    destruct (run_lines_outside_safe (split_on newline content) init eq_refl Hl eq_refl)
      as (st & Es & Hs).
    { apply Forall_forall. intros l Hin. apply (xml_text_sub content); [|exact Hx].
      intros c. apply (split_on_chars newline c content l Hin). }
    rewrite Es in *. cbn [bind]. destruct Hr as (Hin & _).
    rewrite finish_eq, Hin, add_list_to_doc_eq, Hs. cbn [bind andb]. eauto.
Qed.

Lemma no_pipe_no_failure_witness :
  exists d, markdown_to_docx new (Some ( $"# T" ++ nl ++ $"- a" ++ nl ++ $"**b** c"))
            = Ok d.
Proof.
  apply (no_pipe_no_failure new).
  - vm_compute. intuition discriminate.
  - reflexivity.
Defined.

Lemma dropwhile_all (f : ascii -> bool) (s : str) :
  forallb f s = true -> dropwhile f s = [].
Proof.
  induction s as [|a s IH]; cbn [forallb dropwhile]; [reflexivity|].
  intros H. apply andb_true_iff in H as [-> H]. apply IH, H.
Qed.

Lemma strip_all_space (s : str) : forallb is_space s = true -> strip s = [].
Proof.
  intros H. unfold strip, lstrip. rewrite dropwhile_all by exact H. reflexivity.
Qed.

Lemma run_lines_blank (lines : list str) :
  Forall (fun line => strip line = []) lines -> run_lines init lines = Ok init.
Proof.
  induction lines as [|line lines IH]; intros H; cbn [run_lines]; [reflexivity|].
  inversion H as [|? ? H1 H2]; subst.
  rewrite step_blank by exact H1.
  change (after_flush init Ok) with (Ok init). cbn [bind]. apply IH, H2.
Qed.

(** X13 -- A text of white space only, the empty text included, converts
    to the empty document. *)
Theorem blank_text_empty_document (self : processor) (content : str) :
  forallb is_space content = true ->
  markdown_to_docx self (Some content) = Ok [].
Proof.
  intros H. unfold markdown_to_docx. rewrite run_lines_blank; [reflexivity|].
  apply Forall_forall. intros l Hl. apply strip_all_space.
  apply forallb_forall. intros x Hx. rewrite forallb_forall in H.
  apply H. eapply split_on_chars; eassumption.
Qed.

Lemma blank_text_empty_document_witness :
  markdown_to_docx new (Some ( $"  " ++ nl ++ nl ++ $" ")) = Ok [].
Proof. apply (blank_text_empty_document new). reflexivity. Defined.

Lemma dropwhile_length (f : ascii -> bool) (s : str) :
  length (dropwhile f s) <= length s.
Proof.
  induction s as [|a s IH]; cbn [dropwhile]; [lia|].
  destruct (f a); cbn [length]; lia.
Qed.

Lemma rstrip_last (s : str) :
  s <> [] -> rstrip s = s ->
  exists c t, rev s = c :: t /\ is_space c = false.
Proof.
  intros Hne H. unfold rstrip in H.
  assert (E : dropwhile is_space (rev s) = rev s).
  { rewrite <- H at 2. now rewrite rev_involutive. }
  destruct (rev s) as [|c t] eqn:Er.
  - exfalso. apply Hne. rewrite <- (rev_involutive s), Er. reflexivity.
  - exists c, t. split; [reflexivity|]. cbn [dropwhile] in E.
    destruct (is_space c); [|reflexivity].
    pose proof (dropwhile_length is_space t) as Hl. rewrite E in Hl.
    cbn [length] in Hl. lia.
Qed.

Lemma strip_bullet_line (item : str) :
  item_ok item -> strip ( $"- " ++ item) = $"- " ++ item.
Proof.
  intros (Hne & Hr & _). unfold strip.
  assert (Hl : lstrip ( $"- " ++ item) = $"- " ++ item) by reflexivity.
  rewrite Hl. destruct (rstrip_last item Hne Hr) as (c & t & Er & Hc).
  unfold rstrip. rewrite rev_app_distr, Er. cbn [app dropwhile]. rewrite Hc.
  change (c :: t ++ rev $"- ") with ((c :: t) ++ rev $"- ").
  rewrite <- Er, rev_app_distr, !rev_involutive. reflexivity.
Qed.

Lemma step_bullet (st : locals) (item : str) :
  item_ok item -> in_table st = false ->
  step st ( $"- " ++ item)
  = Ok (mk_locals (doc st) (current_list st ++ [item]) false (table_data st)).
Proof.
  intros Hi Hin. pose proof (strip_bullet_line item Hi) as El.
  destruct Hi as (_ & _ & _ & Hp & _).
  assert (Hc : contains $"|" ( $"- " ++ item) = false).
  { apply (contains_char_false pipe). cbn [app list_ascii_of_string].
    intros [E|[E|E]]; [discriminate E | discriminate E | contradiction]. }
  unfold step. rewrite El.
  change ( $"- " ++ item) with ("-"%char :: " "%char :: item) in *.
  change (startswith ("-"%char :: " "%char :: item) $"#") with false.
  rewrite Hc, Hin.
  change (startswith ("-"%char :: " "%char :: item) $"- ") with true.
  reflexivity.
Qed.

Lemma run_lines_bullets (items : list str) (st : locals) :
  Forall item_ok items -> in_table st = false ->
  run_lines st (map (fun item => $"- " ++ item) items)
  = Ok (mk_locals (doc st) (current_list st ++ items) false (table_data st)).
Proof.
  revert st. induction items as [|item items IH]; intros st H Hin;
    cbn [map run_lines].
  - rewrite app_nil_r. destruct st. cbn in *. now subst.
  - inversion H as [|? ? H1 H2]; subst.
    rewrite step_bullet by assumption. cbn [bind].
    rewrite IH by (try assumption; reflexivity).
    cbn [doc current_list table_data]. rewrite <- app_assoc. reflexivity.
Qed.

Lemma bullet_line_no_newline (item : str) :
  item_ok item -> ~ In newline ( $"- " ++ item).
Proof.
  intros (_ & _ & Hn & _). cbn [app list_ascii_of_string].
  intros [E|[E|E]]; [discriminate E | discriminate E | contradiction].
Qed.

Lemma items_safe (items : list str) :
  Forall item_ok items -> safe_texts items = true.
Proof.
  intros H. apply forallb_forall. intros item Hin.
  rewrite Forall_forall in H. apply (H item Hin).
Qed.

Lemma bullets_of_items (items : list str) :
  Forall item_ok items ->
  map bullet items
  = map (fun item => Paragraph (Some $"List Bullet") [plain (stored item)]) items.
Proof.
  intros H. apply map_ext_in. intros item Hin.
  rewrite Forall_forall in H. destruct (H item Hin) as (Hne & _).
  unfold bullet. destruct item; [contradiction | reflexivity].
Qed.

(** X14 -- A block of bullet lines.  The conversion of the lines [- item],
    one for each item of a list and joined by newlines (the display string
    [fill_template] makes of a list), is the document of one bulleted
    paragraph for each item, in the order of the list, each with the text of
    its item (a carriage return read back as a line break); the items being
    texts on one line, without a pipe, not empty, not ending in white space
    and without a character the document library refuses. *)
Theorem bullet_block_renders (self : processor) (items : list str) :
  Forall item_ok items ->
  markdown_to_docx self (Some (join nl (map (fun item => $"- " ++ item) items)))
  = Ok (map (fun item => Paragraph (Some $"List Bullet") [plain (stored item)]) items).
Proof.
  intros H. unfold markdown_to_docx.
  destruct items as [|i0 items]; [reflexivity|].
  unfold nl. rewrite split_on_join.
  - rewrite run_lines_bullets by (try exact H; reflexivity). cbn [bind].
    rewrite finish_eq. cbn [init doc current_list in_table table_data andb app].
    rewrite add_list_to_doc_eq, (items_safe _ H). cbn [bind app].
    f_equal. apply bullets_of_items, H.
  - discriminate.
  - apply Forall_forall. intros l Hl. apply in_map_iff in Hl as (item & <- & Hin).
    rewrite Forall_forall in H. apply bullet_line_no_newline, H, Hin.
Qed.

Lemma bullet_block_renders_witness :
  markdown_to_docx new (Some ( $"- first" ++ nl ++ $"- second one"))
  = Ok [Paragraph (Some $"List Bullet") [plain $"first"];
        Paragraph (Some $"List Bullet") [plain $"second one"]].
Proof.
  apply (bullet_block_renders new [ $"first"; $"second one"]).
  repeat constructor; try discriminate; vm_compute; intuition discriminate.
Defined.

Lemma startswith_head_neq (c a : ascii) (l p : str) :
  c <> a -> startswith (c :: l) (a :: p) = false.
Proof.
  intros H. unfold startswith. cbn [strip_prefix].
  assert (E : eqc a c = false) by (apply eqc_neq; congruence).
  rewrite E. reflexivity.
Qed.

(** X15 -- A numbered line.  Outside a table, a line without a pipe whose
    stripped form is one or more digits, a period and a rest is taken as a
    list item: the rest, without the white space it starts with, is put at
    the end of the open list, and nothing is added to the document.  (So
    is a line such as [3.14 is pi], of which [14 is pi] is kept.) *)
Theorem numbered_line_item (st : locals) (line ds rest : str) :
  strip line = ds ++ dot :: rest ->
  ds <> [] -> forallb is_digit ds = true ->
  ~ In pipe (strip line) -> in_table st = false ->
  step st line
  = Ok (mk_locals (doc st) (current_list st ++ [lstrip rest]) false (table_data st)).
Proof.
  intros El Hne Hd Hp Hin. unfold step. rewrite El.
  destruct ds as [|c ds]; [contradiction|]. cbn [app].
  assert (Hc : is_digit c = true) by (cbn [forallb] in Hd; now apply andb_true_iff in Hd).
  assert (H1 : startswith (c :: ds ++ dot :: rest) $"#" = false)
    by (apply (startswith_head_neq c "#"%char); intros ->; discriminate Hc).
  assert (H2 : startswith (c :: ds ++ dot :: rest) $"- " = false)
    by (apply (startswith_head_neq c "-"%char); intros ->; discriminate Hc).
  assert (H3 : startswith (c :: ds ++ dot :: rest) $"* " = false)
    by (apply (startswith_head_neq c "*"%char); intros ->; discriminate Hc).
  assert (H4 : startswith (c :: ds ++ dot :: rest) $"+ " = false)
    by (apply (startswith_head_neq c "+"%char); intros ->; discriminate Hc).
  rewrite H1, H2, H3, H4.
  assert (Hpipe : contains $"|" (c :: ds ++ dot :: rest) = false).
  { apply (contains_char_false pipe). now rewrite El in Hp. }
  rewrite Hpipe, Hin. cbn [andb orb].
  assert (Hs : span is_digit (c :: ds ++ dot :: rest) = (c :: ds, dot :: rest)).
  { apply (span_app is_digit (c :: ds) (dot :: rest)); [exact Hd | reflexivity]. }
  unfold match_numbered, sub_numbered. rewrite Hs.
  change (startswith (dot :: rest) [dot]) with true.
  change (strip_prefix [dot] (dot :: rest)) with (Some rest).
  reflexivity.
Qed.

Lemma numbered_line_item_witness :
  step init $"12.   Plan the work"
  = Ok (mk_locals [] [ $"Plan the work"] false []) /\
  step init $"3.14 is pi" = Ok (mk_locals [] [ $"14 is pi"] false []).
Proof.
  split.
  - apply (numbered_line_item init $"12.   Plan the work" $"12" $"   Plan the work");
      try reflexivity; [discriminate | vm_compute; intuition discriminate].
  - apply (numbered_line_item init $"3.14 is pi" $"3" $"14 is pi");
      try reflexivity; [discriminate | vm_compute; intuition discriminate].
Defined.

Lemma contains_nil (p : str) : p <> [] -> contains p [] = false.
Proof. destruct p; [contradiction | reflexivity]. Qed.

Lemma run_lines_rows (lines : list str) (st : locals) :
  Forall row_like lines ->
  run_lines st lines
  = Ok (match lines with
        | [] => st
        | _ :: _ =>
            mk_locals (doc st) (current_list st) true
              ((if in_table st then table_data st else []) ++ map strip lines)
        end).
Proof.
  revert st. induction lines as [|line lines IH]; intros st H; [reflexivity|].
  inversion H as [|? ? [Hh Hp] Hl]; subst. cbn [run_lines].
  assert (Hne : strip line <> []).
  { intros E. rewrite E in Hp. discriminate Hp. }
  rewrite step_table_row by assumption. cbn [bind]. rewrite IH by exact Hl.
  destruct lines as [|l2 lines]; [reflexivity|].
  cbn [doc current_list in_table table_data map]. rewrite <- app_assoc. reflexivity.
Qed.

(** X16 -- A block of table rows.  The conversion of lines that all have a
    pipe and do not start with [#], joined by newlines, adds exactly what
    [_add_table_to_doc] makes of the stripped lines: the rows are gathered
    in one buffer and rendered as one table at the end of the input. *)
Theorem table_block_renders (self : processor) (lines : list str) :
  lines <> [] -> Forall row_like lines ->
  Forall (fun line => ~ In newline line) lines ->
  markdown_to_docx self (Some (join nl lines))
  = _add_table_to_doc [] (map strip lines).
Proof.
  intros Hne Hr Hn. unfold markdown_to_docx, nl.
  rewrite split_on_join by assumption.
  rewrite run_lines_rows by exact Hr. cbn [bind].
  destruct lines as [|l1 lines]; [contradiction|].
  rewrite finish_eq.
  cbn [init doc current_list in_table table_data map app andb negb
       _add_list_to_doc bind].
  reflexivity.
Qed.

Lemma table_block_renders_witness :
  markdown_to_docx new (Some ( $"| H1 | H2 |" ++ nl ++ $"|---|---|" ++ nl ++ $" | a | b |"))
  = _add_table_to_doc [] [ $"| H1 | H2 |"; $"|---|---|"; $"| a | b |"].
Proof.
  apply (table_block_renders new [ $"| H1 | H2 |"; $"|---|---|"; $" | a | b |"]).
  - discriminate.
  - repeat constructor.
  - repeat constructor; vm_compute; intuition discriminate.
Defined.

Lemma rstrip_app (a v : str) :
  v <> [] -> rstrip v = v -> rstrip (a ++ v) = a ++ v.
Proof.
  intros Hne Hr. destruct (rstrip_last v Hne Hr) as (c & t & Er & Hc).
  unfold rstrip. rewrite rev_app_distr, Er. cbn [app dropwhile]. rewrite Hc.
  change (c :: t ++ rev a) with ((c :: t) ++ rev a).
  rewrite <- Er, rev_app_distr, !rev_involutive. reflexivity.
Qed.

Lemma entry_item_ok (kx : str * scalar) : entry_ok kx -> item_ok (entry kx).
Proof.
  destruct kx as [k x]. unfold entry_ok, entry. cbn [fst snd].
  intros (Hk1 & Hk2 & Hv1 & Hv2 & Hne & Hr & Hxk & Hxv).
  split; [discriminate|]. split; [|split; [|split]].
  - rewrite !app_assoc. apply rstrip_app; assumption.
  - intros Hin; repeat (apply in_app_or in Hin as [Hin|Hin]);
      try contradiction;
      cbn in Hin; repeat (destruct Hin as [Hin|Hin]; [discriminate Hin|]);
      exact Hin.
  - intros Hin; repeat (apply in_app_or in Hin as [Hin|Hin]);
      try contradiction;
      cbn in Hin; repeat (destruct Hin as [Hin|Hin]; [discriminate Hin|]);
      exact Hin.
  - unfold xml_text in *. rewrite !forallb_app, Hxk, Hxv. reflexivity.
Qed.

Lemma dict_result_flat (flat : list (str * scalar)) :
  dict_result (map (fun kx => (fst kx, VScalar (snd kx))) flat) 0
  = map (fun kx => $"- " ++ entry kx) flat.
Proof.
  induction flat as [|[k x] flat IH]; [reflexivity|].
  cbn [map dict_result fst snd app]. rewrite IH. reflexivity.
Qed.

(** X17 -- A flat mapping in the document.  The text [_dict_to_markdown]
    makes of a mapping from keys to scalars converts to one bulleted
    paragraph for each pair, in the order of the mapping, whose text is
    [**key:** value] with the asterisks left in: in a list item the bold
    markers are not taken as markup.  (Keys and values are on one line,
    without a pipe and without a character the document library refuses,
    the values not empty and not ending in white space; a carriage return
    is read back as a line break.) *)
Theorem flat_mapping_renders (self : processor) (flat : list (str * scalar)) :
  Forall entry_ok flat ->
  markdown_to_docx self
    (Some (_dict_to_markdown (map (fun kx => (fst kx, VScalar (snd kx))) flat) 0))
  = Ok (map (fun kx => Paragraph (Some $"List Bullet") [plain (stored (entry kx))]) flat).
Proof.
  intros H. rewrite dict_to_markdown_result, dict_result_flat.
  rewrite <- (map_map entry (fun item => $"- " ++ item)).
  assert (Hi : Forall item_ok (map entry flat)).
  { apply Forall_forall. intros i Hin. apply in_map_iff in Hin as (kx & <- & Hin).
    rewrite Forall_forall in H. apply entry_item_ok, H, Hin. }
  unfold markdown_to_docx. destruct flat as [|kx flat]; [reflexivity|].
  unfold nl. rewrite split_on_join.
  - rewrite run_lines_bullets by (try exact Hi; reflexivity). cbn [bind].
    rewrite finish_eq. cbn [init doc current_list in_table table_data andb app].
    rewrite add_list_to_doc_eq, (items_safe _ Hi). cbn [bind app].
    rewrite (bullets_of_items _ Hi), map_map. reflexivity.
  - discriminate.
  - apply Forall_forall. intros l Hl. apply in_map_iff in Hl as (item & <- & Hin).
    rewrite Forall_forall in Hi. apply bullet_line_no_newline, Hi, Hin.
Qed.

Lemma flat_mapping_renders_witness :
  markdown_to_docx new
    (Some (_dict_to_markdown [( $"Testing", VScalar (SStr $"$75,000"));
                              ( $"Staff", VScalar (SInt 12))] 0))
  = Ok [Paragraph (Some $"List Bullet") [plain $"**Testing:** $75,000"];
        Paragraph (Some $"List Bullet") [plain $"**Staff:** 12"]].
Proof.
  apply (flat_mapping_renders new [( $"Testing", SStr $"$75,000"); ( $"Staff", SInt 12)]).
  repeat constructor; try discriminate; vm_compute; intuition discriminate.
Defined.

(** ** One bold span in a line *)

Lemma match_bold_head (c : ascii) (s : str) :
  c <> star -> match_bold (c :: s) = None.
Proof.
  intros Hc. destruct (match_bold (c :: s)) as [[d r]|] eqn:E; [exfalso|reflexivity].
  apply match_bold_spec in E as [E [x ->]]. injection E as E _. contradiction.
Qed.

Lemma scan_bold_no_star (x y : str) :
  ~ In star x ->
  Scan.scan match_bold (x ++ y) = map inl x ++ Scan.scan match_bold y.
Proof.
  intros Hx. apply scan_skip. intros x1 [|c x2] E Hne; [contradiction|].
  cbn [app]. apply match_bold_head. intros ->. apply Hx. rewrite E.
  apply in_or_app. right. left. reflexivity.
Qed.

Lemma until_stars_found (x r : str) :
  ~ In star x -> ~ In newline x ->
  until_stars (x ++ [star; star] ++ r) = Some (x, r).
Proof.
  induction x as [|c x IH]; intros Hs Hn; [reflexivity|].
  cbn [app until_stars].
  assert (Hc : c <> star) by (intros ->; apply Hs; now left).
  assert (Hc' : c <> newline) by (intros ->; apply Hn; now left).
  assert (E1 : strip_prefix $"**" (c :: x ++ star :: star :: r) = None).
  { change $"**" with [star; star]. cbn [strip_prefix].
    assert (E : eqc star c = false) by (apply eqc_neq; congruence).
    now rewrite E. }
  rewrite E1. apply eqc_neq in Hc'. rewrite Hc'.
  change (x ++ star :: star :: r) with (x ++ [star; star] ++ r).
  rewrite IH; [reflexivity | |]; intros H; [apply Hs | apply Hn]; now right.
Qed.

Lemma pieces_not_nil {A : Type} (f : A -> str) (ts : list (ascii + A)) :
  Scan.pieces f ts <> [].
Proof.
  destruct ts as [|[c|a] ts]; cbn [Scan.pieces]; try discriminate.
  destruct (Scan.pieces f ts); discriminate.
Qed.

Lemma pieces_inl_app {A : Type} (f : A -> str) (p : str) (ts : list (ascii + A)) :
  Scan.pieces f (map inl p ++ ts)
  = match Scan.pieces f ts with
    | q :: qs => (p ++ q) :: qs
    | [] => [p]
    end.
Proof.
  pose proof (pieces_not_nil f ts) as Hne.
  induction p as [|c p IH]; cbn [map app Scan.pieces].
  - destruct (Scan.pieces f ts); [contradiction | reflexivity].
  - rewrite IH. destruct (Scan.pieces f ts); reflexivity.
Qed.

Lemma run_of_part_no_star (part : str) :
  ~ In star part -> run_of_part part = text_run part false false.
Proof.
  intros H. apply run_of_part_plain. left.
  destruct (startswith part $"*") eqn:E; [|reflexivity].
  apply startswith_true in E as [r ->]. exfalso. apply H. now left.
Qed.

(** X18 -- One bold span.  A line that is a text, a span in double
    asterisks and a text, with no other asterisk, the span on one line and
    no character the document library refuses, becomes one paragraph of
    three runs in this order: the text before as a plain run, the inner
    text of the span as a bold run without its markers, and the text after
    as a plain run (in each a carriage return read back as a line break). *)
Theorem one_bold_span (doc : document) (pre x post : str) :
  ~ In star pre -> ~ In star x -> ~ In newline x -> ~ In star post ->
  xml_text pre = true -> xml_text x = true -> xml_text post = true ->
  _add_formatted_paragraph doc (pre ++ $"**" ++ x ++ $"**" ++ post)
  = Ok (doc ++ [Paragraph None [plain (stored pre); mk_run (stored x) true false;
                                plain (stored post)]]).
Proof.
  intros Hpre Hx Hn Hpost Xpre Xx Xpost. unfold _add_formatted_paragraph, split_bold.
  rewrite scan_bold_no_star by exact Hpre.
  assert (Hm : match_bold ( $"**" ++ x ++ $"**" ++ post)
               = Some ( $"**" ++ x ++ $"**", post)).
  { unfold match_bold. rewrite strip_prefix_app.
    change (x ++ $"**" ++ post) with (x ++ [star; star] ++ post).
    rewrite until_stars_found by assumption. reflexivity. }
  rewrite (scan_match _ _ _ _ shrinks_bold Hm).
  assert (Hp : Scan.scan match_bold post = map inl post).
  { pose proof (scan_bold_no_star post [] Hpost) as E. rewrite app_nil_r in E.
    rewrite E. apply app_nil_r. }
  rewrite Hp, pieces_inl_app. cbn [Scan.pieces].
  rewrite <- (app_nil_r (map inl post)), pieces_inl_app. cbn [Scan.pieces].
  rewrite !app_nil_r. cbn [map_result].
  rewrite run_of_part_bold, !run_of_part_no_star by assumption.
  rewrite !text_run_safe by assumption. reflexivity.
Qed.

Lemma one_bold_span_witness :
  _add_formatted_paragraph [] $"Status: **On Track** since May"
  = Ok [Paragraph None [plain $"Status: "; mk_run $"On Track" true false;
                        plain $" since May"]].
Proof.
  apply (one_bold_span [] $"Status: " $"On Track" $" since May");
    try reflexivity; vm_compute; intuition discriminate.
Defined.
